(** * Image-Steganography: the fallback LSB codec of [core.py] and the
      path helper of [utils.py], embedded and verified.

    Conventions of the embedding.
    - A Python [int] is a [Z]; a [bytes] object is a [list Z] whose elements
      lie in [0, 256) ([is_bytes]); a bit is a [Z] that is [0] or [1].
    - A Python [str] is the list of its code points ([list Z]).
    - An RGBA image is its size and its pixels in row-major order;
      [pixels[x, y]] is the element at index [y * width + x].
    - Exceptions are values of the type [exn]; a call that can raise
      returns a [result]. *)

From Stdlib Require Import ZArith Lia List Bool String Ascii.
From stdpp Require Import base list gmap strings.

Local Open Scope Z_scope.

(** ** Exceptions and results *)

Inductive exn : Type :=
  | SteganographyError (msg : string)
  | FileNotFoundError
  | IndexError
  | ValueError
  | OverflowError
  | UnicodeEncodeError
  | UnicodeDecodeError.

Inductive result (A : Type) : Type :=
  | Ok (a : A)
  | Raise (e : exn).
Arguments Ok {A} a.
Arguments Raise {A} e.

#[global] Instance result_ret : MRet result := fun A a => Ok a.
#[global] Instance result_bind : MBind result := fun A B k r =>
  match r with
  | Ok a => k a
  | Raise e => Raise e
  end.

(** ** Bytes and bits *)

Definition is_byte (b : Z) : Prop := 0 <= b < 256.
Definition is_bit (b : Z) : Prop := b = 0 \/ b = 1.
Definition is_bytes (data : list Z) : Prop := Forall is_byte data.
Definition is_bits (bits : list Z) : Prop := Forall is_bit bits.

(** [_HEADER = b"IMSG\x00"] *)
Definition _HEADER : list Z := [73; 77; 83; 71; 0].

(** [_to_bits]: the generator, collected in a list as [list(_to_bits(..))]
    does.  [for byte in data: for i in range(8): yield (byte >> (7 - i)) & 1] *)
Definition _to_bits (data : list Z) : list Z :=
  flat_map (fun byte => map (fun i => Z.land (Z.shiftr byte (7 - i)) 1) (seqZ 0 8))
           data.

(** [_from_bits].  The loop state is the accumulator [b] and the
    [bytearray] [out]; [i] is the counter of [enumerate(bits, start=1)].
    [out.append(b)] raises [ValueError] unless [b] is in [range(256)]. *)
Fixpoint from_bits_loop (bits : list Z) (i : Z) (b : Z) (out : list Z)
  : result (list Z) :=
  match bits with
  | [] => Ok out
  | bit :: rest =>
      let b := Z.lor (Z.shiftl b 1) bit in
      if i mod 8 =? 0 then
        if (0 <=? b) && (b <? 256)
        then from_bits_loop rest (i + 1) 0 (out ++ [b])
        else Raise ValueError
      else from_bits_loop rest (i + 1) b out
  end.

Definition _from_bits (bits : list Z) : result (list Z) :=
  from_bits_loop bits 1 0 [].

(** The byte whose bits, most significant first, are [b0 .. b7]. *)
Definition byte_of_bits (b0 b1 b2 b3 b4 b5 b6 b7 : Z) : Z :=
  128 * b0 + 64 * b1 + 32 * b2 + 16 * b3 + 8 * b4 + 4 * b5 + 2 * b6 + b7.

(** Regrouping by eight, a trailing group of fewer than eight bits dropped. *)
Fixpoint group8 (bits : list Z) : list Z :=
  match bits with
  | b0 :: b1 :: b2 :: b3 :: b4 :: b5 :: b6 :: b7 :: rest =>
      byte_of_bits b0 b1 b2 b3 b4 b5 b6 b7 :: group8 rest
  | _ => []
  end.

(** The eight bits of a byte, most significant first. *)
Definition bits_of_byte (byte : Z) : list Z :=
  map (fun i => Z.b2z (Z.testbit byte (7 - i))) (seqZ 0 8).

(** ** Built-ins used by the codec *)

(** [n.to_bytes(4, "big")]: [OverflowError] when [n] does not fit. *)
Definition to_bytes4 (n : Z) : result (list Z) :=
  if (0 <=? n) && (n <? 2 ^ 32)
  then Ok [n / 2 ^ 24 mod 256; n / 2 ^ 16 mod 256; n / 2 ^ 8 mod 256; n mod 256]
  else Raise OverflowError.

(** [int.from_bytes(bs, "big")] *)
Definition from_bytes_big (bs : list Z) : Z :=
  fold_left (fun acc b => acc * 256 + b) bs 0.

(** [bs.startswith(prefix)] *)
Definition startswith (bs prefix : list Z) : bool :=
  bool_decide (take (length prefix) bs = prefix).

(** A [str] is the list of its code points. *)
Definition str : Type := list Z.

(** [str.encode("utf-8")] on one code point (strict error handler):
    surrogates cannot be encoded. *)
Definition utf8_encode_cp (c : Z) : result (list Z) :=
  if c <? 0 then Raise UnicodeEncodeError
  else if c <? 0x80 then Ok [c]
  else if c <? 0x800 then Ok [0xC0 + c / 64; 0x80 + c mod 64]
  else if (0xD800 <=? c) && (c <? 0xE000) then Raise UnicodeEncodeError
  else if c <? 0x10000 then
    Ok [0xE0 + c / 4096; 0x80 + c / 64 mod 64; 0x80 + c mod 64]
  else if c <? 0x110000 then
    Ok [0xF0 + c / 262144; 0x80 + c / 4096 mod 64; 0x80 + c / 64 mod 64;
        0x80 + c mod 64]
  else Raise UnicodeEncodeError.

Fixpoint utf8_encode (s : str) : result (list Z) :=
  match s with
  | [] => Ok []
  | c :: s' =>
      bs ← utf8_encode_cp c;
      rest ← utf8_encode s';
      Ok (bs ++ rest)
  end.

Definition is_cont (b : Z) : bool := (0x80 <=? b) && (b <? 0xC0).

(** [bytes.decode("utf-8")] (strict): overlong forms, surrogates, code
    points above U+10FFFF, stray continuation bytes and truncated sequences
    raise [UnicodeDecodeError]. *)
Fixpoint utf8_decode (bs : list Z) : result str :=
  match bs with
  | [] => Ok []
  | b0 :: r0 =>
      if (0 <=? b0) && (b0 <? 0x80) then
        s ← utf8_decode r0; Ok (b0 :: s)
      else if (0xC2 <=? b0) && (b0 <? 0xE0) then
        match r0 with
        | b1 :: r1 =>
            if is_cont b1 then
              s ← utf8_decode r1; Ok ((b0 - 0xC0) * 64 + (b1 - 0x80) :: s)
            else Raise UnicodeDecodeError
        | _ => Raise UnicodeDecodeError
        end
      else if (0xE0 <=? b0) && (b0 <? 0xF0) then
        match r0 with
        | b1 :: b2 :: r2 =>
            let c := (b0 - 0xE0) * 4096 + (b1 - 0x80) * 64 + (b2 - 0x80) in
            if is_cont b1 && is_cont b2 && (0x800 <=? c)
               && negb ((0xD800 <=? c) && (c <? 0xE000)) then
              s ← utf8_decode r2; Ok (c :: s)
            else Raise UnicodeDecodeError
        | _ => Raise UnicodeDecodeError
        end
      else if (0xF0 <=? b0) && (b0 <? 0xF5) then
        match r0 with
        | b1 :: b2 :: b3 :: r3 =>
            let c := (b0 - 0xF0) * 262144 + (b1 - 0x80) * 4096
                     + (b2 - 0x80) * 64 + (b3 - 0x80) in
            if is_cont b1 && is_cont b2 && is_cont b3
               && (0x10000 <=? c) && (c <? 0x110000) then
              s ← utf8_decode r3; Ok (c :: s)
            else Raise UnicodeDecodeError
        | _ => Raise UnicodeDecodeError
        end
      else Raise UnicodeDecodeError
  end.

(** Text that [encode("utf-8")] accepts: Unicode scalar values. *)
Definition is_scalar (c : Z) : Prop :=
  0 <= c < 0x110000 /\ ~ (0xD800 <= c < 0xE000).
Definition is_text (s : str) : Prop := Forall is_scalar s.

(** ** Images *)

(** A pixel: red, green, blue, alpha. *)
Abbreviation pixel := (Z * Z * Z * Z)%type (only parsing).

(** An image in mode RGBA: [img.size] and the pixels, row after row. *)
Record image : Type := Image {
  width : nat;
  height : nat;
  data : list pixel
}.

Definition well_formed (img : image) : Prop :=
  length (data img) = (width img * height img)%nat.

(** [capacity = width * height * 3] *)
Definition capacity (w h : nat) : nat := (w * h * 3)%nat.

(** Code that works on the loaded image [img] (through [pixels = img.load()])
    threads it as a state and may raise. *)
Definition M (A : Type) : Type := image -> image * result A.

#[global] Instance M_ret : MRet M := fun A a img => (img, Ok a).
#[global] Instance M_bind : MBind M := fun A B k m img =>
  match m img with
  | (img', Ok a) => k a img'
  | (img', Raise e) => (img', Raise e)
  end.

Definition in_bounds (img : image) (x y : nat) : bool :=
  (x <? width img)%nat && (y <? height img)%nat.

(** [pixels[x, y]] *)
Definition getpixel (x y : nat) : M pixel := fun img =>
  if in_bounds img x y then
    match data img !! (y * width img + x)%nat with
    | Some p => (img, Ok p)
    | None => (img, Raise IndexError)
    end
  else (img, Raise IndexError).

(** [pixels[x, y] = p] *)
Definition putpixel (x y : nat) (p : pixel) : M unit := fun img =>
  if in_bounds img x y && bool_decide (y * width img + x < length (data img))%nat
  then (Image (width img) (height img)
              (<[(y * width img + x)%nat := p]> (data img)), Ok tt)
  else (img, Raise IndexError).

(** [(v & ~1) | bit] *)
Definition set_lsb (v bit : Z) : Z := Z.lor (Z.land v (Z.lnot 1)) bit.

(** The body of the two loops of [_fallback_encode] at pixel [(x, y)],
    with [it] the bits the iterator still holds.  The boolean tells
    whether the [except StopIteration] branch ran, which writes the pixel
    with the channels assigned so far and returns from the function. *)
Definition encode_pixel (it : list Z) (x y : nat) : M (list Z * bool) :=
  p ← getpixel x y;
  let '(r, g, b, a) := p in
  match it with
  | b0 :: b1 :: b2 :: it' =>
      _ ← putpixel x y (set_lsb r b0, set_lsb g b1, set_lsb b b2, a);
      mret (it', false)
  | [b0; b1] =>
      _ ← putpixel x y (set_lsb r b0, set_lsb g b1, b, a);
      mret ([], true)
  | [b0] =>
      _ ← putpixel x y (set_lsb r b0, g, b, a);
      mret ([], true)
  | [] =>
      _ ← putpixel x y (r, g, b, a);
      mret ([], true)
  end.

(** [for x in range(width): ...] at row [y] *)
Fixpoint encode_row (xs : list nat) (y : nat) (it : list Z) : M (list Z * bool) :=
  match xs with
  | [] => mret (it, false)
  | x :: xs' =>
      '(it', returned) ← encode_pixel it x y;
      if returned : bool then mret (it', true) else encode_row xs' y it'
  end.

(** [for y in range(height): for x in range(width): ...] *)
Fixpoint encode_rows (w : nat) (ys : list nat) (it : list Z) : M (list Z * bool) :=
  match ys with
  | [] => mret (it, false)
  | y :: ys' =>
      '(it', returned) ← encode_row (seq 0 w) y it;
      if returned : bool then mret (it', true) else encode_rows w ys' it'
  end.

(** The loops of [_fallback_decode]: [bits.extend([r & 1, g & 1, b & 1])]. *)
Fixpoint decode_row (xs : list nat) (y : nat) (bits : list Z) : M (list Z) :=
  match xs with
  | [] => mret bits
  | x :: xs' =>
      p ← getpixel x y;
      let '(r, g, b, a) := p in
      decode_row xs' y (bits ++ [Z.land r 1; Z.land g 1; Z.land b 1])
  end.

Fixpoint decode_rows (w : nat) (ys : list nat) (bits : list Z) : M (list Z) :=
  match ys with
  | [] => mret bits
  | y :: ys' =>
      bits' ← decode_row (seq 0 w) y bits;
      decode_rows w ys' bits'
  end.

(** ** Paths ([pathlib]) *)

(** A parsed [Path]: [name] is the final component ([p.name], empty for
    the root and for [Path(".")]), [dir] what precedes it, separator
    included, so that [str(p)] is [dir ++ name].  [suffix] and
    [with_suffix] follow [pathlib] as of CPython 3.8 to 3.12. *)
Record Path : Type := mkPath {
  dir : string;
  name : string
}.

#[global] Instance Path_eq_dec : EqDecision Path.
Proof. solve_decision. Defined.

#[global] Instance Path_countable : Countable Path :=
  inj_countable' (fun p => (dir p, name p)) (fun q => mkPath q.1 q.2)
                 (fun p => match p with mkPath _ _ => eq_refl end).

Definition path_str (p : Path) : string := String.append (dir p) (name p).

(** [s.rfind(".")], [None] standing for [-1]. *)
Fixpoint rfind_dot (s : string) : option nat :=
  match s with
  | EmptyString => None
  | String c s' =>
      match rfind_dot s' with
      | Some i => Some (S i)
      | None => if Ascii.eqb c "."%char then Some 0%nat else None
      end
  end.

(** [p.suffix]: [name[i:]] when [0 < i < len(name) - 1] for
    [i = name.rfind(".")], else the empty string. *)
Definition suffix (p : Path) : string :=
  let nm := name p in
  match rfind_dot nm with
  | Some i =>
      if (0 <? i)%nat && (i <? String.length nm - 1)%nat
      then substring i (String.length nm - i) nm
      else EmptyString
  | None => EmptyString
  end.

Fixpoint contains_char (c : ascii) (s : string) : bool :=
  match s with
  | EmptyString => false
  | String d s' => Ascii.eqb c d || contains_char c s'
  end.

(** [p.with_suffix(sfx)]: [ValueError] for an invalid suffix or an empty
    name; otherwise the old suffix, if any, is cut off the name and [sfx]
    appended. *)
Definition with_suffix (p : Path) (sfx : string) : result Path :=
  if contains_char "/"%char sfx then Raise ValueError
  else if (negb (String.eqb sfx EmptyString) && negb (String.prefix "." sfx))
          || String.eqb sfx "." then Raise ValueError
  else if String.eqb (name p) EmptyString then Raise ValueError
  else
    let old := suffix p in
    let nm := name p in
    Ok (mkPath (dir p)
          (String.append
             (substring 0 (String.length nm - String.length old) nm) sfx)).

Definition lower_ascii (c : ascii) : ascii :=
  let n := nat_of_ascii c in
  if (65 <=? n)%nat && (n <=? 90)%nat then ascii_of_nat (n + 32) else c.

(** [s.lower()] on ASCII strings: the letters [A] to [Z] are lowered,
    every other character is kept. *)
Fixpoint lower (s : string) : string :=
  match s with
  | EmptyString => EmptyString
  | String c s' => String (lower_ascii c) (lower s')
  end.

(** [utils.ensure_png] *)
Definition ensure_png (path : Path) : result Path :=
  if negb (String.eqb (lower (suffix path)) ".png")
  then with_suffix path ".png"
  else Ok path.

(** [LOSSLESS_EXTS] and [utils.is_lossless_image] *)
Definition LOSSLESS_EXTS : list string := [".png"; ".bmp"; ".tiff"; ".tif"]%string.

Definition is_lossless_image (path : Path) : bool :=
  bool_decide (lower (suffix path) ∈ LOSSLESS_EXTS).

(** ** The file system and the fallback codec *)

(** The image files there are, by path.  [Image.open(p).convert("RGBA")]
    is the lookup, [img.save(p)] the insertion: PNG keeps RGBA pixels
    exactly. *)

Definition too_large : exn :=
  SteganographyError "Message is too large for this image in fallback mode.".
Definition empty_message : exn :=
  SteganographyError "Message must not be empty".
Definition no_message : exn :=
  SteganographyError "No hidden message found or unable to decode.".
Definition cover_not_found (cover : Path) : exn :=
  SteganographyError (String.append "Cover image not found: " (path_str cover)).
Definition image_not_found (img : Path) : exn :=
  SteganographyError (String.append "Image not found: " (path_str img)).

(** [_HEADER + len(body).to_bytes(4, "big") + body] for
    [body = message.encode("utf-8")] *)
Definition make_payload (message : str) : result (list Z) :=
  body ← utf8_encode message;
  len ← to_bytes4 (Z.of_nat (length body));
  Ok (_HEADER ++ len ++ body).

(** [_fallback_encode].  The result is the file system after the call, the
    loaded image [img] as the call leaves it ([None] when it was never
    loaded), and the outcome. *)
Definition _fallback_encode (fs : gmap Path image) (cover : Path)
    (message : str) (out : Path)
  : gmap Path image * option image * result unit :=
  match fs !! cover with
  | None => (fs, None, Raise FileNotFoundError)
  | Some img =>
      let w := width img in
      let h := height img in
      match make_payload message with
      | Raise e => (fs, Some img, Raise e)
      | Ok payload =>
          let bits := _to_bits payload in
          if (capacity w h <? length bits)%nat
          then (fs, Some img, Raise too_large)
          else
            match encode_rows w (seq 0 h) bits img with
            | (img', Ok _) => (<[out := img']> fs, Some img', Ok tt)
            | (img', Raise e) => (fs, Some img', Raise e)
            end
      end
  end.

(** [_fallback_decode] *)
Definition _fallback_decode (fs : gmap Path image) (stego : Path) : result str :=
  match fs !! stego with
  | None => Raise FileNotFoundError
  | Some img =>
      let w := width img in
      let h := height img in
      bits ← (decode_rows w (seq 0 h) [] img).2;
      let header_len_bits := ((length _HEADER + 4) * 8)%nat in
      header_bytes ← _from_bits (take header_len_bits bits);
      if negb (startswith header_bytes _HEADER) then Ok []
      else
        let msg_len :=
          from_bytes_big (take 4 (drop (length _HEADER) header_bytes)) in
        let msg_bits :=
          take (Z.to_nat (msg_len * 8)) (drop header_len_bits bits) in
        msg_bytes ← _from_bits msg_bits;
        match utf8_decode msg_bytes with
        | Ok s => Ok s
        | Raise UnicodeDecodeError => Ok []
        | Raise e => Raise e
        end
  end.

(** ** The public API *)

(** The [stegano] package, when it can be imported: [lsb.hide] gives the
    image to save, [lsb.reveal] the message or [None]. *)
Record backend : Type := Backend {
  hide : gmap Path image -> Path -> str -> result image;
  reveal : gmap Path image -> Path -> result (option str)
}.

(** [encode_message_to_image]; [lsb] is [None] when [stegano] is missing. *)
Definition encode_message_to_image (lsb : option backend)
    (fs : gmap Path image) (cover_image : Path) (message : str)
    (output_path : Path) : gmap Path image * result Path :=
  let cover := cover_image in
  if bool_decide (fs !! cover = None) then (fs, Raise (cover_not_found cover))
  else if bool_decide (message = []) then (fs, Raise empty_message)
  else
    match ensure_png output_path with
    | Raise e => (fs, Raise e)
    | Ok out =>
        match lsb with
        | None =>
            let '(fs', _, r) := _fallback_encode fs cover message out in
            (fs', _ ← r; Ok out)
        | Some l =>
            let _ := is_lossless_image cover in
            match hide l fs cover message with
            | Raise e => (fs, Raise e)
            | Ok secret => (<[out := secret]> fs, Ok out)
            end
        end
    end.

(** [decode_message_from_image]; [msg] is [None] or a string, and
    [not msg] holds of [None] and of the empty string. *)
Definition decode_message_from_image (lsb : option backend)
    (fs : gmap Path image) (stego_image : Path) : result str :=
  let img := stego_image in
  if bool_decide (fs !! img = None) then Raise (image_not_found img)
  else
    msg ← match lsb with
          | None => s ← _fallback_decode fs img; Ok (Some s)
          | Some l => reveal l fs img
          end;
    match msg with
    | None | Some [] => Raise no_message
    | Some s => Ok s
    end.

(** ** The vocabulary of the specification *)

(** The error kinds of the specification are the [SteganographyError]s
    of the code, told apart by their message. *)
Definition InvalidInput : exn := empty_message.
Definition CapacityExceeded : exn := too_large.
Definition NoMessageFound : exn := no_message.

(** The frame of a body: MARKER, LENGTH, BODY. *)
Definition frame (body : list Z) : list Z :=
  _HEADER
  ++ [Z.of_nat (length body) / 2 ^ 24 mod 256;
      Z.of_nat (length body) / 2 ^ 16 mod 256;
      Z.of_nat (length body) / 2 ^ 8 mod 256;
      Z.of_nat (length body) mod 256]
  ++ body.

(** The low-order bits of the red, green and blue channels, pixel after
    pixel. *)
Definition read_bits (px : list pixel) : list Z :=
  flat_map (fun p : pixel =>
              let '(r, g, b, a) := p in [Z.land r 1; Z.land g 1; Z.land b 1])
           px.

(** What the writer leaves of a pixel list: three bits a pixel while the
    stream lasts. *)
Fixpoint write_bits (px : list pixel) (bits : list Z) : list pixel :=
  match px with
  | [] => []
  | p :: px' =>
      let '(r, g, b, a) := p in
      match bits with
      | b0 :: b1 :: b2 :: bits' =>
          (set_lsb r b0, set_lsb g b1, set_lsb b b2, a) :: write_bits px' bits'
      | [b0; b1] => (set_lsb r b0, set_lsb g b1, b, a) :: px'
      | [b0] => (set_lsb r b0, g, b, a) :: px'
      | [] => p :: px'
      end
  end.

(** The bytes a carrier holds in its low-order bits. *)
Definition carrier_bytes (img : image) : list Z :=
  group8 (read_bits (data img)).

(** LENGTH, as the four bytes after the marker declare it. *)
Definition declared_length (bytes : list Z) : Z :=
  from_bytes_big (take 4 (drop 5 bytes)).

(** The bytes after the header: as many as LENGTH declares, or as many as
    there are. *)
Definition body_of (bytes : list Z) : list Z :=
  take (Z.to_nat (declared_length bytes)) (drop 9 bytes).

(** What extraction makes of the bytes of a carrier. *)
Definition extract_bytes (bytes : list Z) : result str :=
  if startswith bytes _HEADER then
    match utf8_decode (body_of bytes) with
    | Ok (c :: s) => Ok (c :: s)
    | _ => Raise NoMessageFound
    end
  else Raise NoMessageFound.

(** [len(message.encode("utf-8"))], and the length of the frame of a
    message: five bytes of marker, four of length, the body. *)
Definition utf8_length (message : str) : nat :=
  match utf8_encode message with
  | Ok body => length body
  | Raise _ => 0%nat
  end.

Definition frame_length (message : str) : nat := (9 + utf8_length message)%nat.

(** The value of a channel that held [v] once the writer has passed, when
    the channel is the one for position [i] of the stream [bits]. *)
Definition written (bits : list Z) (v : Z) (i : nat) : Z :=
  match bits !! i with
  | Some bit => set_lsb v bit
  | None => v
  end.

(** The image that embedding the body [body] in [img] leaves. *)
Definition embedded (img : image) (body : list Z) : image :=
  Image (width img) (height img)
        (write_bits (data img) (_to_bits (frame body))).

(** ** Concrete inputs *)

Definition cover_png : Path := mkPath "/tmp/" "cover.png".
Definition stego_png : Path := mkPath "/tmp/" "stego.png".
Definition stego_jpg : Path := mkPath "/tmp/" "stego.jpg".

(** [Image.new("RGBA", (w, h), (20, 40, 60, 255))] *)
Definition plain_image (w h : nat) : image :=
  Image w h (repeat (20, 40, 60, 255) (w * h)).

(** ["Hi!"] and ["Hey!"] *)
Definition msg_hi : str := [72; 105; 33].
Definition msg_hey : str := [72; 101; 121; 33].

(** A carrier of 27 pixels, that is ten bytes: the marker, a length field
    that declares two bytes, and the one byte ["A"] that is left. *)
Definition truncated_carrier : image :=
  Image 27 1 (write_bits (repeat (20, 40, 60, 255) 27)
                         (_to_bits (_HEADER ++ [0; 0; 0; 2; 65]))).

(** A carrier that holds the frame of the empty body, and one that holds
    the frame of the body [b"\xff"], which is not UTF-8. *)
Definition empty_body_carrier : image := embedded (plain_image 6 6) [].
Definition binary_body_carrier : image := embedded (plain_image 6 6) [255].


(** ** Tactics *)

(** Case analysis on every comparison of the goal, the impossible cases
    closed by arithmetic. *)
Ltac split_comparisons :=
  repeat (match goal with
          | |- context [Z.leb ?a ?b] => destruct (Z.leb_spec a b)
          | |- context [Z.ltb ?a ?b] => destruct (Z.ltb_spec a b)
          end;
          cbn [andb negb orb];
          try (exfalso; Z.div_mod_to_equations; lia)).

(** ** Further vocabulary *)

(** [Image.new("RGBA", (w, h), color)] *)
Definition new_image (w h : nat) (color : pixel) : image :=
  Image w h (repeat color (w * h)).

(** Pixels and images of eight-bit channels. *)
Definition is_pixel8 (p : pixel) : Prop :=
  let '(r, g, b, a) := p in
  is_byte r /\ is_byte g /\ is_byte b /\ is_byte a.

Definition is_image8 (img : image) : Prop := Forall is_pixel8 (data img).

(** Pixels that differ by at most one in red, green and blue and have the
    same alpha. *)
Definition near (p q : pixel) : Prop :=
  let '(r, g, b, a) := p in
  let '(r', g', b', a') := q in
  Z.abs (r' - r) <= 1 /\ Z.abs (g' - g) <= 1 /\ Z.abs (b' - b) <= 1 /\ a' = a.

(** Pixels with the same low-order bits in red, green and blue. *)
Definition same_lsb (p q : pixel) : Prop :=
  let '(r, g, b, _) := p in
  let '(r', g', b', _) := q in
  Z.land r 1 = Z.land r' 1 /\ Z.land g 1 = Z.land g' 1
  /\ Z.land b 1 = Z.land b' 1.

(** A string of ASCII characters, on which [lower] is Python's
    [str.lower]. *)
Definition is_ascii_string (s : string) : Prop :=
  Forall (fun c => (nat_of_ascii c < 128)%nat) (list_ascii_of_string s).

(** The name of a path in lower case. *)
Definition lower_name (p : Path) : Path := mkPath (dir p) (lower (name p)).

(** ["Hi"] followed by a lone surrogate, which [encode] refuses. *)
Definition msg_surrogate : str := [72; 105; 0xD800].

Definition out_bmp : Path := mkPath "/tmp/" "Out.BMP".
Definition no_name : Path := mkPath "/tmp/" "".

(** * Theorems *)

(** ** The bit codec *)

Lemma is_bit_land1 (v : Z) : is_bit (Z.land v 1).
Proof.
  change 1 with (Z.ones 1). rewrite Z.land_ones by lia.
  unfold is_bit. change (2 ^ 1) with 2.
  Z.div_mod_to_equations. lia.
Qed.

Lemma land_shiftr_testbit (v k : Z) :
  0 <= k -> Z.land (Z.shiftr v k) 1 = Z.b2z (Z.testbit v k).
Proof.
  intros Hk. change 1 with (Z.ones 1). rewrite Z.land_ones by lia.
  change (2 ^ 1) with 2. rewrite <- Z.bit0_mod, Z.shiftr_spec by lia.
  reflexivity.
Qed.

Lemma to_bits_cons (byte : Z) (data : list Z) :
  _to_bits (byte :: data) = bits_of_byte byte ++ _to_bits data.
Proof.
  unfold _to_bits, bits_of_byte. cbn [flat_map]. f_equal.
  apply map_ext_in. intros i Hi. apply land_shiftr_testbit.
  apply list_elem_of_In, elem_of_seqZ in Hi. lia.
Qed.

Lemma to_bits_app (d1 d2 : list Z) :
  _to_bits (d1 ++ d2) = _to_bits d1 ++ _to_bits d2.
Proof. unfold _to_bits. apply flat_map_app. Qed.

Lemma to_bits_flat (data : list Z) :
  _to_bits data = flat_map bits_of_byte data.
Proof.
  induction data as [|b data IH]; [reflexivity|].
  rewrite to_bits_cons, IH. reflexivity.
Qed.

Lemma length_to_bits (data : list Z) :
  length (_to_bits data) = (8 * length data)%nat.
Proof.
  induction data as [|b data IH]; [reflexivity|].
  rewrite to_bits_cons, length_app, IH. unfold bits_of_byte.
  rewrite length_map, length_seqZ. cbn [length]. lia.
Qed.

Lemma is_bits_bits_of_byte (byte : Z) : is_bits (bits_of_byte byte).
Proof.
  unfold bits_of_byte, is_bits. apply Forall_forall. intros b Hb.
  apply list_elem_of_In, in_map_iff in Hb. destruct Hb as (i & <- & _).
  unfold is_bit. destruct (Z.testbit byte (7 - i)); cbn; lia.
Qed.

Lemma is_bits_to_bits (data : list Z) : is_bits (_to_bits data).
Proof.
  induction data as [|b data IH]; [constructor|].
  rewrite to_bits_cons. apply Forall_app. split; [apply is_bits_bits_of_byte|exact IH].
Qed.

(** Checking a decidable property of bytes on all of them. *)
Lemma byte_cases (f : Z -> bool) :
  forallb f (seqZ 0 256) = true -> forall b, is_byte b -> f b = true.
Proof.
  intros Hall b Hb. rewrite forallb_forall in Hall. apply Hall.
  apply list_elem_of_In, elem_of_seqZ. unfold is_byte in Hb. lia.
Qed.

Lemma group8_bits_of_byte (byte : Z) (rest : list Z) :
  is_byte byte -> group8 (bits_of_byte byte ++ rest) = byte :: group8 rest.
Proof.
  intros Hb.
  assert (H : (match bits_of_byte byte with
               | [b0; b1; b2; b3; b4; b5; b6; b7] =>
                   byte_of_bits b0 b1 b2 b3 b4 b5 b6 b7 =? byte
               | _ => false
               end) = true).
  { revert byte Hb. apply byte_cases. vm_compute. reflexivity. }
  unfold bits_of_byte in *. cbn [seqZ] in *.
  change (seqZ 0 8) with [0; 1; 2; 3; 4; 5; 6; 7] in *.
  cbn [map app group8] in *. apply Z.eqb_eq in H. rewrite H. reflexivity.
Qed.

Lemma group8_to_bits (data extra : list Z) :
  is_bytes data -> (length extra < 8)%nat ->
  group8 (_to_bits data ++ extra) = data.
Proof.
  intros Hd He. induction Hd as [|b data Hb Hd IH].
  - cbn. do 8 (destruct extra as [|? extra]; [reflexivity|]). cbn in He. lia.
  - rewrite to_bits_cons, <- app_assoc, group8_bits_of_byte by exact Hb.
    rewrite IH. reflexivity.
Qed.

Lemma length_group8 (bits : list Z) :
  length (group8 bits) = (length bits / 8)%nat.
Proof.
  induction bits as [bits IH] using (induction_ltof1 _ (@length Z)).
  unfold ltof in IH.
  do 8 (destruct bits as [|? bits]; [reflexivity|]).
  cbn [group8 length]. rewrite IH by (cbn; lia).
  change (S (S (S (S (S (S (S (S (length bits)))))))))
    with (8 + length bits)%nat.
  replace (8 + length bits)%nat with (length bits + 1 * 8)%nat by lia.
  rewrite Nat.div_add by lia. lia.
Qed.

(** Eight steps of the loop of [_from_bits] from a byte boundary. *)
Lemma from_bits_loop_byte (b0 b1 b2 b3 b4 b5 b6 b7 : Z) (rest : list Z)
    (i : Z) (out : list Z) :
  i mod 8 = 1 ->
  is_bit b0 -> is_bit b1 -> is_bit b2 -> is_bit b3 ->
  is_bit b4 -> is_bit b5 -> is_bit b6 -> is_bit b7 ->
  from_bits_loop (b0 :: b1 :: b2 :: b3 :: b4 :: b5 :: b6 :: b7 :: rest) i 0 out
  = from_bits_loop rest (i + 8) 0 (out ++ [byte_of_bits b0 b1 b2 b3 b4 b5 b6 b7]).
Proof.
  intros Hi H0 H1 H2 H3 H4 H5 H6 H7.
  assert (E0 : (i mod 8 =? 0) = false) by (apply Z.eqb_neq; lia).
  assert (E1 : ((i + 1) mod 8 =? 0) = false)
    by (apply Z.eqb_neq; Z.div_mod_to_equations; lia).
  assert (E2 : ((i + 1 + 1) mod 8 =? 0) = false)
    by (apply Z.eqb_neq; Z.div_mod_to_equations; lia).
  assert (E3 : ((i + 1 + 1 + 1) mod 8 =? 0) = false)
    by (apply Z.eqb_neq; Z.div_mod_to_equations; lia).
  assert (E4 : ((i + 1 + 1 + 1 + 1) mod 8 =? 0) = false)
    by (apply Z.eqb_neq; Z.div_mod_to_equations; lia).
  assert (E5 : ((i + 1 + 1 + 1 + 1 + 1) mod 8 =? 0) = false)
    by (apply Z.eqb_neq; Z.div_mod_to_equations; lia).
  assert (E6 : ((i + 1 + 1 + 1 + 1 + 1 + 1) mod 8 =? 0) = false)
    by (apply Z.eqb_neq; Z.div_mod_to_equations; lia).
  assert (E7 : ((i + 1 + 1 + 1 + 1 + 1 + 1 + 1) mod 8 =? 0) = true)
    by (apply Z.eqb_eq; Z.div_mod_to_equations; lia).
  cbn [from_bits_loop]. cbv zeta.
  rewrite E0, E1, E2, E3, E4, E5, E6, E7.
  replace (i + 1 + 1 + 1 + 1 + 1 + 1 + 1 + 1) with (i + 8) by lia.
  unfold is_bit in *.
  destruct H0 as [-> | ->], H1 as [-> | ->], H2 as [-> | ->], H3 as [-> | ->],
    H4 as [-> | ->], H5 as [-> | ->], H6 as [-> | ->], H7 as [-> | ->];
    reflexivity.
Qed.

(** Fewer than eight bits from a byte boundary add no byte. *)
Lemma from_bits_loop_tail (bits : list Z) (i : Z) (out : list Z) :
  i mod 8 = 1 -> (length bits < 8)%nat ->
  from_bits_loop bits i 0 out = Ok out.
Proof.
  intros Hi Hlen.
  assert (E : forall k, 0 <= k < 7 -> ((i + k) mod 8 =? 0) = false).
  { intros k Hk. apply Z.eqb_neq. Z.div_mod_to_equations. lia. }
  assert (G : forall k b, 0 <= k -> Z.of_nat (length bits) + k < 8 ->
                     from_bits_loop bits (i + k) b out = Ok out).
  { clear Hlen. induction bits as [|bit bits IH]; intros k b Hk Hl.
    - reflexivity.
    - cbn [from_bits_loop]. cbv zeta. cbn [length] in Hl.
      rewrite E by lia. replace (i + k + 1) with (i + (k + 1)) by lia.
      apply IH; lia. }
  specialize (G 0 0 ltac:(lia) ltac:(lia)).
  rewrite Z.add_0_r in G. exact G.
Qed.

Lemma from_bits_loop_group8 (bits : list Z) (i : Z) (out : list Z) :
  is_bits bits -> i mod 8 = 1 ->
  from_bits_loop bits i 0 out = Ok (out ++ group8 bits).
Proof.
  revert i out.
  induction bits as [bits IH] using (induction_ltof1 _ (@length Z)).
  unfold ltof in IH. intros i out Hb Hi.
  destruct (decide (length bits < 8)%nat) as [Hl | Hl].
  - rewrite from_bits_loop_tail by assumption.
    do 8 (destruct bits as [|? bits]; [rewrite app_nil_r; reflexivity|]).
    cbn in Hl. lia.
  - do 8 (destruct bits as [|? bits]; [cbn in Hl; lia|]).
    unfold is_bits in Hb. repeat rewrite Forall_cons in Hb.
    destruct Hb as (H0 & H1 & H2 & H3 & H4 & H5 & H6 & H7 & Hb).
    rewrite from_bits_loop_byte by assumption.
    rewrite IH.
    + cbn [group8]. rewrite <- app_assoc. reflexivity.
    + cbn. lia.
    + exact Hb.
    + Z.div_mod_to_equations. lia.
Qed.

Lemma from_bits_group8 (bits : list Z) :
  is_bits bits -> _from_bits bits = Ok (group8 bits).
Proof.
  intros Hb. unfold _from_bits.
  rewrite from_bits_loop_group8 by (assumption || reflexivity). reflexivity.
Qed.

Lemma from_bits_to_bits (data extra : list Z) :
  is_bytes data -> is_bits extra -> (length extra < 8)%nat ->
  _from_bits (_to_bits data ++ extra) = Ok data.
Proof.
  intros Hd He Hl. rewrite from_bits_group8.
  - rewrite group8_to_bits by assumption. reflexivity.
  - apply Forall_app. split; [apply is_bits_to_bits | exact He].
Qed.

(** C6. Bit codec: [_to_bits] emits eight bits a byte, most significant
    first; [_from_bits] regroups bits by eight, most significant first, and
    drops a trailing group of fewer than eight; hence
    [_from_bits (_to_bits data) = data], also when fewer than eight extra
    bits follow. *)
Theorem bit_codec (data bits extra : list Z) :
  is_bytes data -> is_bits bits -> is_bits extra -> (length extra < 8)%nat ->
  _to_bits data = flat_map bits_of_byte data
  /\ length (_to_bits data) = (8 * length data)%nat
  /\ _from_bits bits = Ok (group8 bits)
  /\ length (group8 bits) = (length bits / 8)%nat
  /\ _from_bits (_to_bits data) = Ok data
  /\ _from_bits (_to_bits data ++ extra) = Ok data.
Proof.
  intros Hd Hb He Hl. repeat split.
  - apply to_bits_flat.
  - apply length_to_bits.
  - apply from_bits_group8, Hb.
  - apply length_group8.
  - rewrite <- (app_nil_r (_to_bits data)).
    apply from_bits_to_bits; [exact Hd | constructor | cbn; lia].
  - apply from_bits_to_bits; assumption.
Qed.

Lemma bit_codec_witness :
  let data := [73; 255; 0] in
  let bits := [1; 0; 1; 1; 0; 0; 1; 0; 1; 1] in
  let extra := [1; 0; 1] in
  _to_bits data = flat_map bits_of_byte data
  /\ length (_to_bits data) = (8 * length data)%nat
  /\ _from_bits bits = Ok (group8 bits)
  /\ length (group8 bits) = (length bits / 8)%nat
  /\ _from_bits (_to_bits data) = Ok data
  /\ _from_bits (_to_bits data ++ extra) = Ok data.
Proof.
  apply (bit_codec [73; 255; 0] [1; 0; 1; 1; 0; 0; 1; 0; 1; 1] [1; 0; 1]).
  - repeat constructor; unfold is_byte; lia.
  - repeat constructor; unfold is_bit; lia.
  - repeat constructor; unfold is_bit; lia.
  - cbn. lia.
Defined.

(** ** The pixel writer and reader *)

Lemma land_set_lsb (v b : Z) : is_bit b -> Z.land (set_lsb v b) 1 = b.
Proof.
  intros Hb. unfold set_lsb.
  rewrite <- (Z.shiftr_0_r (Z.lor _ _)), land_shiftr_testbit by lia.
  rewrite Z.lor_spec, Z.land_spec, Z.lnot_spec by lia.
  destruct Hb as [-> | ->]; destruct (Z.testbit v 0); reflexivity.
Qed.

Lemma shiftr_set_lsb (v b : Z) :
  is_bit b -> Z.shiftr (set_lsb v b) 1 = Z.shiftr v 1.
Proof.
  intros Hb. unfold set_lsb. apply Z.bits_inj'. intros n Hn.
  rewrite !Z.shiftr_spec, Z.lor_spec, Z.land_spec, Z.lnot_spec by lia.
  assert (H1 : Z.testbit 1 (n + 1) = false).
  { destruct n as [|n|n]; [reflexivity| |lia].
    cbn. destruct n; reflexivity. }
  assert (Hbn : Z.testbit b (n + 1) = false).
  { destruct Hb as [-> | ->]; [apply Z.testbit_0_l | exact H1]. }
  rewrite H1, Hbn. cbn. rewrite andb_true_r, orb_false_r. reflexivity.
Qed.

Lemma write_bits_nil (px : list pixel) : write_bits px [] = px.
Proof. destruct px as [|[[[r g] b] a] px]; reflexivity. Qed.

Lemma write_bits_app (l1 l2 : list pixel) (it : list Z) :
  write_bits (l1 ++ l2) it
  = write_bits l1 it ++ write_bits l2 (drop (3 * length l1) it).
Proof.
  revert it. induction l1 as [|[[[r g] b] a] l1 IH]; intros it.
  - reflexivity.
  - cbn [app write_bits length].
    replace (3 * S (length l1))%nat with (S (S (S (3 * length l1)))) by lia.
    destruct it as [|b0 [|b1 [|b2 it]]]; cbn [drop app];
      rewrite ?drop_nil, ?write_bits_nil, ?IH; reflexivity.
Qed.

Lemma length_write_bits (px : list pixel) (it : list Z) :
  length (write_bits px it) = length px.
Proof.
  revert it. induction px as [|[[[r g] b] a] px IH]; intros it; [reflexivity|].
  cbn [write_bits]. destruct it as [|b0 [|b1 [|b2 it]]]; cbn [length];
    rewrite ?IH; reflexivity.
Qed.

Lemma encode_pixel_at (w h : nat) (pre cur : list pixel) (p : pixel)
    (x y : nat) (it : list Z) :
  length pre = (y * w + x)%nat -> (x < w)%nat -> (y < h)%nat ->
  encode_pixel it x y (Image w h (pre ++ p :: cur))
  = (Image w h (pre ++ write_bits [p] it ++ cur),
     Ok (drop 3 it, bool_decide (length it < 3)%nat)).
Proof.
  intros Hpre Hx Hy. unfold encode_pixel, mbind, M_bind, getpixel, in_bounds.
  cbn [width height data].
  assert (Ex : (x <? w)%nat = true) by (apply Nat.ltb_lt; exact Hx).
  assert (Ey : (y <? h)%nat = true) by (apply Nat.ltb_lt; exact Hy).
  rewrite Ex, Ey. cbn [andb].
  rewrite list_lookup_middle by (symmetry; exact Hpre).
  destruct p as [[[r g] b] a].
  assert (Hput : forall v : pixel,
    putpixel x y v (Image w h (pre ++ (r, g, b, a) :: cur))
    = (Image w h (pre ++ v :: cur), Ok tt)).
  { intros v. unfold putpixel, in_bounds. cbn [width height data].
    rewrite Ex, Ey. cbn [andb].
    rewrite bool_decide_eq_true_2
      by (rewrite length_app; cbn [length]; lia).
    rewrite <- Hpre. rewrite <- (Nat.add_0_r (length pre)) at 1.
    rewrite insert_app_r. reflexivity. }
  destruct it as [|b0 [|b1 [|b2 it]]]; rewrite Hput; reflexivity.
Qed.

Lemma encode_row_spec (w h y : nat) (n x0 : nat) (pre cur : list pixel)
    (it : list Z) :
  length pre = (y * w + x0)%nat -> (x0 + n <= w)%nat -> (y < h)%nat ->
  (n <= length cur)%nat ->
  encode_row (seq x0 n) y it (Image w h (pre ++ cur))
  = (Image w h (pre ++ write_bits (take n cur) it ++ drop n cur),
     Ok (drop (3 * n) it, bool_decide (length it < 3 * n)%nat)).
Proof.
  revert x0 pre cur it. induction n as [|n IH]; intros x0 pre cur it Hpre Hx Hy Hn.
  - cbn. rewrite drop_0. reflexivity.
  - destruct cur as [|p cur]; [cbn in Hn; lia|].
    cbn [seq encode_row]. unfold mbind at 1, M_bind at 1.
    rewrite (encode_pixel_at w h pre cur p x0 y it) by (assumption || lia).
    cbn [take drop].
    change (p :: take n cur) with ([p] ++ take n cur).
    rewrite write_bits_app. cbn [length].
    replace (3 * 1)%nat with 3%nat by lia.
    replace (3 * S n)%nat with (3 + 3 * n)%nat by lia.
    rewrite <- drop_drop.
    case_bool_decide as Hlt.
    + cbn. rewrite (drop_ge it 3) by lia.
      rewrite drop_nil, write_bits_nil, <- app_assoc, take_drop.
      rewrite bool_decide_eq_true_2 by lia. reflexivity.
    + replace (pre ++ write_bits [p] it ++ cur)
        with ((pre ++ write_bits [p] it) ++ cur) by (rewrite <- app_assoc; reflexivity).
      rewrite IH.
      * rewrite <- !app_assoc. repeat f_equal.
        apply bool_decide_ext. rewrite length_drop. lia.
      * rewrite length_app, length_write_bits. cbn [length]. lia.
      * lia.
      * exact Hy.
      * cbn in Hn. lia.
Qed.

Lemma encode_rows_spec (w h : nat) (m y0 : nat) (pre cur : list pixel)
    (it : list Z) :
  length pre = (y0 * w)%nat -> (y0 + m <= h)%nat ->
  (m * w <= length cur)%nat ->
  encode_rows w (seq y0 m) it (Image w h (pre ++ cur))
  = (Image w h (pre ++ write_bits (take (m * w) cur) it ++ drop (m * w) cur),
     Ok (drop (3 * (m * w)) it, bool_decide (length it < 3 * (m * w))%nat)).
Proof.
  revert y0 pre cur it. induction m as [|m IH]; intros y0 pre cur it Hpre Hy Hm.
  - cbn. rewrite drop_0. reflexivity.
  - cbn [seq encode_rows]. unfold mbind at 1, M_bind at 1.
    rewrite (encode_row_spec w h y0 w 0 pre cur it) by lia.
    replace (S m * w)%nat with (w + m * w)%nat in * by lia.
    assert (Hw : w = length (take w cur)) by (rewrite length_take; lia).
    assert (Hcur : cur = take w cur ++ drop w cur) by (rewrite take_drop; reflexivity).
    assert (Hrest : (m * w <= length (drop w cur))%nat)
      by (rewrite length_drop; lia).
    revert Hw Hcur Hrest.
    generalize (take w cur) as row. generalize (drop w cur) as rest.
    intros rest row Hw Hcur Hrest. subst cur.
    rewrite take_app_add', drop_app_add' by exact Hw.
    rewrite write_bits_app, <- Hw.
    replace (3 * (w + m * w))%nat with (3 * w + 3 * (m * w))%nat by lia.
    rewrite <- drop_drop.
    case_bool_decide as Hlt.
    + rewrite (drop_ge it (3 * w)) by lia.
      rewrite drop_nil, write_bits_nil, <- !app_assoc, take_drop.
      rewrite bool_decide_eq_true_2 by lia. reflexivity.
    + replace (pre ++ write_bits row it ++ rest)
        with ((pre ++ write_bits row it) ++ rest)
        by (rewrite <- app_assoc; reflexivity).
      rewrite IH.
      * rewrite <- !app_assoc. repeat f_equal.
        apply bool_decide_ext. rewrite length_drop. lia.
      * rewrite length_app, length_write_bits, <- Hw. lia.
      * lia.
      * exact Hrest.
Qed.

(** On a well-formed image the two loops of [_fallback_encode] leave
    [write_bits] of its pixels. *)
Lemma encode_rows_image (img : image) (it : list Z) :
  well_formed img ->
  encode_rows (width img) (seq 0 (height img)) it img
  = (Image (width img) (height img) (write_bits (data img) it),
     Ok (drop (3 * (height img * width img)) it,
         bool_decide (length it < 3 * (height img * width img))%nat)).
Proof.
  intros Hwf. destruct img as [w h px]. unfold well_formed in Hwf.
  cbn [width height data] in *.
  pose proof (encode_rows_spec w h h 0 [] px it) as H.
  cbn [app length] in H. rewrite H by lia.
  rewrite take_ge, drop_ge by lia. rewrite app_nil_r. reflexivity.
Qed.

Lemma decode_row_spec (w h y : nat) (n x0 : nat) (pre cur : list pixel)
    (bits : list Z) :
  length pre = (y * w + x0)%nat -> (x0 + n <= w)%nat -> (y < h)%nat ->
  (n <= length cur)%nat ->
  decode_row (seq x0 n) y bits (Image w h (pre ++ cur))
  = (Image w h (pre ++ cur), Ok (bits ++ read_bits (take n cur))).
Proof.
  revert x0 pre cur bits.
  induction n as [|n IH]; intros x0 pre cur bits Hpre Hx Hy Hn.
  - cbn. rewrite app_nil_r. reflexivity.
  - destruct cur as [|p cur]; [cbn in Hn; lia|].
    cbn [seq decode_row]. unfold mbind at 1, M_bind at 1, getpixel, in_bounds.
    cbn [width height data].
    assert (Ex : (x0 <? w)%nat = true) by (apply Nat.ltb_lt; lia).
    assert (Ey : (y <? h)%nat = true) by (apply Nat.ltb_lt; exact Hy).
    rewrite Ex, Ey. cbn [andb].
    rewrite list_lookup_middle by (symmetry; exact Hpre).
    destruct p as [[[r g] b] a].
    cbv beta iota.
    rewrite (cons_middle _ pre cur), app_assoc, IH.
    + rewrite firstn_cons. unfold read_bits. cbn [flat_map].
      rewrite <- !app_assoc. reflexivity.
    + rewrite length_app. cbn [length]. lia.
    + lia.
    + exact Hy.
    + cbn in Hn. lia.
Qed.

Lemma decode_rows_spec (w h : nat) (m y0 : nat) (pre cur : list pixel)
    (bits : list Z) :
  length pre = (y0 * w)%nat -> (y0 + m <= h)%nat ->
  (m * w <= length cur)%nat ->
  decode_rows w (seq y0 m) bits (Image w h (pre ++ cur))
  = (Image w h (pre ++ cur), Ok (bits ++ read_bits (take (m * w) cur))).
Proof.
  revert y0 pre cur bits.
  induction m as [|m IH]; intros y0 pre cur bits Hpre Hy Hm.
  - cbn. rewrite app_nil_r. reflexivity.
  - cbn [seq decode_rows]. unfold mbind at 1, M_bind at 1.
    rewrite (decode_row_spec w h y0 w 0 pre cur bits) by lia.
    replace (S m * w)%nat with (w + m * w)%nat in * by lia.
    assert (Hw : w = length (take w cur)) by (rewrite length_take; lia).
    assert (Hcur : cur = take w cur ++ drop w cur) by (rewrite take_drop; reflexivity).
    assert (Hrest : (m * w <= length (drop w cur))%nat)
      by (rewrite length_drop; lia).
    revert Hw Hcur Hrest.
    generalize (take w cur) as row. generalize (drop w cur) as rest.
    intros rest row Hw Hcur Hrest. subst cur.
    rewrite take_app_add' by exact Hw.
    rewrite (app_assoc pre row rest), IH.
    + unfold read_bits. rewrite flat_map_app, <- !app_assoc. reflexivity.
    + rewrite length_app, <- Hw. lia.
    + lia.
    + exact Hrest.
Qed.

(** On a well-formed image the two loops of [_fallback_decode] read
    [read_bits] of its pixels and leave the image as it is. *)
Lemma decode_rows_image (img : image) :
  well_formed img ->
  decode_rows (width img) (seq 0 (height img)) [] img
  = (img, Ok (read_bits (data img))).
Proof.
  intros Hwf. destruct img as [w h px]. unfold well_formed in Hwf.
  cbn [width height data] in *.
  pose proof (decode_rows_spec w h h 0 [] px []) as H.
  cbn [app length] in H. rewrite H by lia.
  rewrite take_ge by lia. reflexivity.
Qed.

Lemma length_read_bits (px : list pixel) :
  length (read_bits px) = (3 * length px)%nat.
Proof.
  induction px as [|[[[r g] b] a] px IH]; [reflexivity|].
  change (read_bits ((r, g, b, a) :: px))
    with ([Z.land r 1; Z.land g 1; Z.land b 1] ++ read_bits px).
  rewrite length_app, IH. cbn [length]. lia.
Qed.

Lemma is_bits_read_bits (px : list pixel) : is_bits (read_bits px).
Proof.
  induction px as [|[[[r g] b] a] px IH]; [constructor|].
  change (read_bits ((r, g, b, a) :: px))
    with ([Z.land r 1; Z.land g 1; Z.land b 1] ++ read_bits px).
  cbn [app]. repeat (constructor; [apply is_bit_land1|]).
  exact IH.
Qed.

(** Reading after writing: the stream, then the bits that were there. *)
Lemma read_write_bits (px : list pixel) (bits : list Z) :
  is_bits bits -> (length bits <= 3 * length px)%nat ->
  read_bits (write_bits px bits) = bits ++ drop (length bits) (read_bits px).
Proof.
  revert bits. induction px as [|[[[r g] b] a] px IH]; intros bits Hb Hl.
  - destruct bits; [reflexivity | cbn in Hl; lia].
  - cbn [write_bits].
    destruct bits as [|b0 [|b1 [|b2 bits]]]; unfold is_bits in Hb;
      repeat rewrite Forall_cons in Hb.
    + reflexivity.
    + destruct Hb as (H0 & _). cbn [read_bits flat_map app length drop].
      rewrite land_set_lsb by exact H0. reflexivity.
    + destruct Hb as (H0 & H1 & _). cbn [read_bits flat_map app length drop].
      rewrite !land_set_lsb by assumption. reflexivity.
    + destruct Hb as (H0 & H1 & H2 & Hb).
      cbn [read_bits flat_map app length drop].
      rewrite !land_set_lsb by assumption.
      change (flat_map _ (write_bits px bits)) with (read_bits (write_bits px bits)).
      rewrite IH by (assumption || (cbn [length] in Hl; lia)).
      reflexivity.
Qed.

(** ** UTF-8 *)

Lemma utf8_encode_cp_ok (c : Z) :
  is_scalar c -> exists bs, utf8_encode_cp c = Ok bs /\ is_bytes bs.
Proof.
  intros [Hr Hs]. unfold utf8_encode_cp. split_comparisons;
    (eexists; split; [reflexivity|]);
    unfold is_bytes; repeat constructor; unfold is_byte;
    Z.div_mod_to_equations; lia.
Qed.

Lemma utf8_decode_encode_cp (c : Z) (bs rest : list Z) :
  is_scalar c -> utf8_encode_cp c = Ok bs ->
  utf8_decode (bs ++ rest) = (s ← utf8_decode rest; Ok (c :: s)).
Proof.
  intros [Hr Hs]. unfold utf8_encode_cp.
  split_comparisons; intros E; injection E as <-;
    cbn [app utf8_decode]; unfold is_cont; cbv zeta;
    split_comparisons;
    (destruct (utf8_decode rest); cbn; [f_equal; f_equal|reflexivity]);
    Z.div_mod_to_equations; lia.
Qed.

Lemma utf8_roundtrip (s : str) :
  is_text s ->
  exists bs, utf8_encode s = Ok bs /\ is_bytes bs /\ utf8_decode bs = Ok s.
Proof.
  intros Hs. induction Hs as [|c s Hc Hs (bs & E & Hb & D)].
  - exists []. repeat split. constructor.
  - destruct (utf8_encode_cp_ok c Hc) as (cb & Ec & Hcb).
    exists (cb ++ bs). cbn [utf8_encode]. rewrite Ec, E. repeat split.
    + apply Forall_app. split; assumption.
    + rewrite (utf8_decode_encode_cp c cb bs Hc Ec), D. reflexivity.
Qed.

(** ** Regrouping slices *)

Lemma group8_take (bits : list Z) (k : nat) :
  group8 (take (8 * k) bits) = take k (group8 bits).
Proof.
  revert bits. induction k as [|k IH]; intros bits; [reflexivity|].
  replace (8 * S k)%nat with (8 + 8 * k)%nat by lia.
  cbn [Nat.add].
  do 8 (destruct bits as [|? bits]; [reflexivity|]).
  cbn [take group8]. rewrite IH. reflexivity.
Qed.

Lemma group8_drop (bits : list Z) (k : nat) :
  group8 (drop (8 * k) bits) = drop k (group8 bits).
Proof.
  revert bits. induction k as [|k IH]; intros bits; [reflexivity|].
  replace (8 * S k)%nat with (8 + 8 * k)%nat by lia.
  cbn [Nat.add].
  do 8 (destruct bits as [|? bits];
        [cbn [drop group8]; rewrite ?drop_nil; reflexivity|]).
  cbn [drop group8]. rewrite IH. reflexivity.
Qed.

Lemma group8_to_bits_app (data rest : list Z) :
  is_bytes data -> group8 (_to_bits data ++ rest) = data ++ group8 rest.
Proof.
  intros Hd. induction Hd as [|b data Hb Hd IH]; [reflexivity|].
  rewrite to_bits_cons, <- app_assoc, group8_bits_of_byte by exact Hb.
  rewrite IH. reflexivity.
Qed.

Lemma is_bytes_group8 (bits : list Z) : is_bits bits -> is_bytes (group8 bits).
Proof.
  induction bits as [bits IH] using (induction_ltof1 _ (@length Z)).
  unfold ltof in IH. intros Hb.
  do 8 (destruct bits as [|? bits]; [constructor|]).
  unfold is_bits in Hb. repeat rewrite Forall_cons in Hb.
  destruct Hb as (H0 & H1 & H2 & H3 & H4 & H5 & H6 & H7 & Hb).
  cbn [group8]. constructor.
  - unfold is_bit in *. unfold is_byte, byte_of_bits. lia.
  - apply IH; [cbn; lia | exact Hb].
Qed.

(** ** Length field *)

Lemma from_bytes_big_to_bytes4 (n : Z) (bs : list Z) :
  to_bytes4 n = Ok bs ->
  from_bytes_big bs = n /\ is_bytes bs /\ length bs = 4%nat.
Proof.
  unfold to_bytes4. split_comparisons; intros E; try discriminate E.
  injection E as <-. split; [|split].
  - unfold from_bytes_big. cbn [fold_left]. Z.div_mod_to_equations. lia.
  - unfold is_bytes. repeat constructor; unfold is_byte;
      Z.div_mod_to_equations; lia.
  - reflexivity.
Qed.

Lemma to_nat_times8 (n : Z) : Z.to_nat (n * 8) = (8 * Z.to_nat n)%nat.
Proof. lia. Qed.

Lemma utf8_decode_raise (bs : list Z) (e : exn) :
  utf8_decode bs = Raise e -> e = UnicodeDecodeError.
Proof.
  induction bs as [bs IH] using (induction_ltof1 _ (@length Z)).
  unfold ltof in IH. destruct bs as [|b0 r0]; [discriminate|].
  cbn [utf8_decode]. unfold is_cont. cbv zeta.
  assert (G : forall (r : list Z) (c : Z),
             (length r < length (b0 :: r0))%nat ->
             (s ← utf8_decode r; Ok (c :: s)) = Raise e ->
             e = UnicodeDecodeError).
  { intros r c Hr. destruct (utf8_decode r) eqn:E; cbn; [discriminate|].
    intros [= <-]. apply (IH r Hr). exact E. }
  split_comparisons;
    repeat match goal with
           | |- context [match ?l with [] => _ | _ :: _ => _ end] =>
               destruct l
           end;
    split_comparisons;
    try (intros [= <-]; reflexivity);
    apply G; cbn [length]; lia.
Qed.

Lemma utf8_decode_nil (bs : list Z) : utf8_decode bs = Ok [] -> bs = [].
Proof.
  destruct bs as [|b0 r0]; [reflexivity|].
  cbn [utf8_decode]. unfold is_cont. cbv zeta.
  split_comparisons;
    repeat match goal with
           | |- context [match ?l with [] => _ | _ :: _ => _ end] =>
               destruct l
           end;
    split_comparisons;
    try discriminate;
    match goal with
    | |- context [utf8_decode ?r] => destruct (utf8_decode r)
    end; discriminate.
Qed.

(** ** The fallback decoder on a well-formed carrier *)

Lemma fallback_decode_spec (fs : gmap Path image) (stego : Path) (img : image) :
  fs !! stego = Some img -> well_formed img ->
  _fallback_decode fs stego
  = if startswith (carrier_bytes img) _HEADER then
      match utf8_decode (body_of (carrier_bytes img)) with
      | Ok s => Ok s
      | Raise _ => Ok []
      end
    else Ok [].
Proof.
  intros Hfs Hwf. unfold _fallback_decode. rewrite Hfs.
  rewrite decode_rows_image by exact Hwf. cbn [snd].
  unfold mbind at 1, result_bind at 1.
  pose proof (is_bits_read_bits (data img)) as Hbits.
  set (bits := read_bits (data img)) in *.
  change ((length _HEADER + 4) * 8)%nat with (8 * 9)%nat.
  rewrite from_bits_group8 by (apply Forall_take; exact Hbits).
  unfold mbind at 1, result_bind at 1.
  rewrite group8_take. change (group8 bits) with (carrier_bytes img).
  set (bytes := carrier_bytes img).
  assert (Hsw : startswith (take 9 bytes) _HEADER = startswith bytes _HEADER).
  { unfold startswith. apply bool_decide_ext.
    change (length _HEADER) with 5%nat. rewrite take_take. reflexivity. }
  rewrite Hsw. destruct (startswith bytes _HEADER); cbn [negb]; [|reflexivity].
  change (length _HEADER) with 5%nat.
  rewrite to_nat_times8.
  assert (Hlen : take 4 (drop 5 (take 9 bytes)) = take 4 (drop 5 bytes)).
  { rewrite skipn_firstn_comm. cbn [Nat.sub]. rewrite take_take. reflexivity. }
  rewrite Hlen. fold (declared_length bytes).
  rewrite from_bits_group8
    by (apply Forall_take, Forall_drop; exact Hbits).
  unfold mbind, result_bind.
  rewrite group8_take, group8_drop. change (group8 bits) with bytes.
  fold (body_of bytes).
  destruct (utf8_decode (body_of bytes)) as [s|e] eqn:E; [reflexivity|].
  rewrite (utf8_decode_raise _ _ E). reflexivity.
Qed.

(** ** The fallback encoder on a well-formed cover *)

Lemma utf8_encode_raise (s : str) (e : exn) :
  utf8_encode s = Raise e -> e = UnicodeEncodeError.
Proof.
  induction s as [|c s IH]; [discriminate|].
  cbn [utf8_encode]. unfold utf8_encode_cp.
  split_comparisons; cbn; try (intros [= <-]; reflexivity);
    (destruct (utf8_encode s); cbn; [discriminate|]);
    intros [= <-]; apply IH; reflexivity.
Qed.

Lemma make_payload_raise (message : str) (e : exn) :
  make_payload message = Raise e ->
  e = UnicodeEncodeError \/ e = OverflowError.
Proof.
  unfold make_payload. destruct (utf8_encode message) as [body|e'] eqn:E; cbn.
  - unfold to_bytes4. split_comparisons; cbn; try discriminate;
      intros [= <-]; right; reflexivity.
  - intros [= <-]. left. apply (utf8_encode_raise _ _ E).
Qed.

Lemma make_payload_frame (message : str) (body : list Z) :
  utf8_encode message = Ok body -> Z.of_nat (length body) < 2 ^ 32 ->
  make_payload message = Ok (frame body).
Proof.
  intros E Hl. unfold make_payload, to_bytes4. rewrite E. cbn.
  split_comparisons. reflexivity.
Qed.

Lemma length_frame (body : list Z) : length (frame body) = (9 + length body)%nat.
Proof. unfold frame. rewrite !length_app. reflexivity. Qed.

Lemma is_bytes_frame (body : list Z) : is_bytes body -> is_bytes (frame body).
Proof.
  intros Hb. unfold frame, is_bytes. rewrite !Forall_app. repeat split.
  - repeat constructor; unfold is_byte; lia.
  - repeat constructor; unfold is_byte; Z.div_mod_to_equations; lia.
  - exact Hb.
Qed.

Lemma fallback_encode_cases (fs : gmap Path image) (cover out : Path)
    (message : str) (img : image) :
  fs !! cover = Some img -> well_formed img ->
  _fallback_encode fs cover message out
  = match make_payload message with
    | Raise e => (fs, Some img, Raise e)
    | Ok payload =>
        if (capacity (width img) (height img) <? length (_to_bits payload))%nat
        then (fs, Some img, Raise too_large)
        else
          let img' := Image (width img) (height img)
                            (write_bits (data img) (_to_bits payload)) in
          (<[out := img']> fs, Some img', Ok tt)
    end.
Proof.
  intros Hfs Hwf. unfold _fallback_encode. rewrite Hfs.
  destruct (make_payload message) as [payload|e]; [|reflexivity].
  cbv zeta. rewrite encode_rows_image by exact Hwf. reflexivity.
Qed.

(** Whatever makes [_fallback_encode] raise, no file is written. *)
Lemma fallback_encode_raise (fs fs' : gmap Path image) (cover out : Path)
    (message : str) (mem : option image) (e : exn) :
  _fallback_encode fs cover message out = (fs', mem, Raise e) -> fs' = fs.
Proof.
  unfold _fallback_encode. destruct (fs !! cover) as [img|]; [|congruence].
  destruct (make_payload message) as [payload|e0]; [|congruence].
  cbv zeta. destruct (_ <? _)%nat; [congruence|].
  destruct (encode_rows _ _ _ _) as [img' [v|e1]]; congruence.
Qed.

(** Whatever makes [encode_message_to_image] raise, no file is written. *)
Lemma encode_raise (lsb : option backend) (fs fs' : gmap Path image)
    (cover out : Path) (message : str) (e : exn) :
  encode_message_to_image lsb fs cover message out = (fs', Raise e) -> fs' = fs.
Proof.
  unfold encode_message_to_image.
  case_bool_decide; [congruence|]. case_bool_decide; [congruence|].
  destruct (ensure_png out) as [out'|e0]; [|congruence].
  destruct lsb as [l|].
  - cbv zeta. destruct (hide l fs cover message); congruence.
  - destruct (_fallback_encode fs cover message out') as [[fs1 mem] [[]|e1]] eqn:E;
      cbn; [discriminate|].
    intros [= <- <-]. apply (fallback_encode_raise _ _ _ _ _ _ _ E).
Qed.

Lemma decode_message_spec (fs : gmap Path image) (stego : Path) (img : image) :
  fs !! stego = Some img -> well_formed img ->
  decode_message_from_image None fs stego = extract_bytes (carrier_bytes img).
Proof.
  intros Hfs Hwf. unfold decode_message_from_image, extract_bytes.
  rewrite bool_decide_eq_false_2 by (rewrite Hfs; discriminate).
  rewrite (fallback_decode_spec fs stego img Hfs Hwf).
  destruct (startswith _ _); [|reflexivity].
  destruct (utf8_decode _) as [[|c s]|e]; reflexivity.
Qed.

(** The carrier that embedding leaves holds the frame, then what the
    cover held. *)
Lemma carrier_bytes_write (img : image) (body : list Z) :
  well_formed img -> is_bytes body ->
  (8 * length (frame body) <= capacity (width img) (height img))%nat ->
  exists junk,
    carrier_bytes (Image (width img) (height img)
                         (write_bits (data img) (_to_bits (frame body))))
    = frame body ++ junk.
Proof.
  intros Hwf Hb Hcap. unfold carrier_bytes. cbn [data].
  unfold well_formed, capacity in *.
  rewrite read_write_bits.
  - rewrite group8_to_bits_app by (apply is_bytes_frame, Hb).
    eexists. reflexivity.
  - apply is_bits_to_bits.
  - rewrite length_to_bits. lia.
Qed.

Lemma frame_parse (body junk : list Z) :
  Z.of_nat (length body) < 2 ^ 32 ->
  startswith (frame body ++ junk) _HEADER = true
  /\ declared_length (frame body ++ junk) = Z.of_nat (length body)
  /\ body_of (frame body ++ junk) = body.
Proof.
  intros Hl.
  assert (L : to_bytes4 (Z.of_nat (length body))
              = Ok [Z.of_nat (length body) / 2 ^ 24 mod 256;
                    Z.of_nat (length body) / 2 ^ 16 mod 256;
                    Z.of_nat (length body) / 2 ^ 8 mod 256;
                    Z.of_nat (length body) mod 256]).
  { unfold to_bytes4. split_comparisons. reflexivity. }
  apply from_bytes_big_to_bytes4 in L. destruct L as (L & _ & _).
  assert (D : declared_length (frame body ++ junk) = Z.of_nat (length body)).
  { unfold declared_length, frame. cbn [_HEADER app drop take].
    rewrite take_0. exact L. }
  split; [reflexivity|]. split; [exact D|].
  unfold body_of. rewrite D, Nat2Z.id. unfold frame.
  cbn [_HEADER app drop]. rewrite drop_0, take_app_length. reflexivity.
Qed.

Lemma utf8_length_encode (message : str) (body : list Z) :
  utf8_encode message = Ok body -> utf8_length message = length body.
Proof. intros E. unfold utf8_length. rewrite E. reflexivity. Qed.

Lemma well_formed_embedded (img : image) (body : list Z) :
  well_formed img -> well_formed (embedded img body).
Proof.
  unfold well_formed, embedded. cbn [width height data].
  rewrite length_write_bits. trivial.
Qed.

Lemma fallback_encode_text (fs : gmap Path image) (cover out : Path)
    (img : image) (message : str) (body : list Z) :
  fs !! cover = Some img -> well_formed img ->
  utf8_encode message = Ok body -> Z.of_nat (length body) < 2 ^ 32 ->
  _fallback_encode fs cover message out
  = if (capacity (width img) (height img) <? 8 * (9 + length body))%nat
    then (fs, Some img, Raise too_large)
    else (<[out := embedded img body]> fs, Some (embedded img body), Ok tt).
Proof.
  intros Hfs Hwf E Hl.
  rewrite (fallback_encode_cases fs cover out message img Hfs Hwf).
  rewrite (make_payload_frame message body E Hl).
  rewrite length_to_bits, length_frame. reflexivity.
Qed.

Lemma encode_fallback (fs : gmap Path image) (cover output_path out : Path)
    (img : image) (message : str) :
  fs !! cover = Some img -> message <> [] -> ensure_png output_path = Ok out ->
  encode_message_to_image None fs cover message output_path
  = let '(fs', _, r) := _fallback_encode fs cover message out in
    (fs', _ ← r; Ok out).
Proof.
  intros Hfs Hne Hout. unfold encode_message_to_image.
  rewrite bool_decide_eq_false_2 by (rewrite Hfs; discriminate).
  rewrite bool_decide_eq_false_2 by exact Hne.
  rewrite Hout. reflexivity.
Qed.

Lemma extract_embedded (img : image) (message : str) (body : list Z) :
  well_formed img -> utf8_encode message = Ok body -> is_text message ->
  Z.of_nat (length body) < 2 ^ 32 ->
  (8 * (9 + length body) <= capacity (width img) (height img))%nat ->
  startswith (carrier_bytes (embedded img body)) _HEADER = true
  /\ utf8_decode (body_of (carrier_bytes (embedded img body))) = Ok message.
Proof.
  intros Hwf E Ht Hl Hcap.
  destruct (utf8_roundtrip message Ht) as (body' & E' & Hb & D).
  rewrite E in E'. injection E' as <-.
  destruct (carrier_bytes_write img body Hwf Hb) as (junk & Hj).
  { rewrite length_frame. exact Hcap. }
  unfold embedded. rewrite Hj.
  destruct (frame_parse body junk Hl) as (Hsw & _ & Hbody).
  rewrite Hsw, Hbody. split; [reflexivity | exact D].
Qed.

(** C1. Round trip: for every canvas whose capacity, [width * height * 3]
    bits, is at least eight times the length of the frame of the message,
    and every non-empty message (text of fewer than 2^32 bytes), embedding
    succeeds and extracting from the canvas it produces returns exactly the
    message. *)
Theorem round_trip (fs : gmap Path image) (cover : Path) (img : image)
    (message : str) :
  fs !! cover = Some img -> well_formed img ->
  is_text message -> message <> [] ->
  Z.of_nat (utf8_length message) < 2 ^ 32 ->
  (8 * frame_length message <= capacity (width img) (height img))%nat ->
  exists img',
    (forall out,
        _fallback_encode fs cover message out
        = (<[out := img']> fs, Some img', Ok tt)
        /\ _fallback_decode (<[out := img']> fs) out = Ok message)
    /\ (forall output_path out,
           ensure_png output_path = Ok out ->
           encode_message_to_image None fs cover message output_path
           = (<[out := img']> fs, Ok out)
           /\ decode_message_from_image None (<[out := img']> fs) out
              = Ok message).
Proof.
  intros Hfs Hwf Ht Hne Hl Hcap.
  destruct (utf8_roundtrip message Ht) as (body & E & Hb & D).
  unfold frame_length in Hcap. rewrite (utf8_length_encode _ _ E) in Hl, Hcap.
  exists (embedded img body).
  pose proof (well_formed_embedded img body Hwf) as Hwf'.
  destruct (extract_embedded img message body Hwf E Ht Hl Hcap) as (Hsw & Hdec).
  assert (Henc : forall out,
    _fallback_encode fs cover message out
    = (<[out := embedded img body]> fs, Some (embedded img body), Ok tt)).
  { intros out. rewrite (fallback_encode_text fs cover out img message body)
      by assumption.
    rewrite (proj2 (Nat.ltb_ge _ _)) by exact Hcap. reflexivity. }
  split.
  - intros out. split; [apply Henc|].
    rewrite (fallback_decode_spec _ out (embedded img body))
      by (apply lookup_insert_eq || exact Hwf').
    rewrite Hsw, Hdec. reflexivity.
  - intros output_path out Hout. split.
    + rewrite (encode_fallback fs cover output_path out img message)
        by assumption.
      rewrite Henc. reflexivity.
    + rewrite (decode_message_spec _ out (embedded img body))
        by (apply lookup_insert_eq || exact Hwf').
      unfold extract_bytes. rewrite Hsw, Hdec.
      destruct message; [contradiction|reflexivity].
Qed.

Lemma round_trip_witness :
  exists img',
    (forall out,
        _fallback_encode {[cover_png := plain_image 6 6]} cover_png msg_hi out
        = (<[out := img']> {[cover_png := plain_image 6 6]}, Some img', Ok tt)
        /\ _fallback_decode (<[out := img']> {[cover_png := plain_image 6 6]}) out
           = Ok msg_hi)
    /\ (forall output_path out,
           ensure_png output_path = Ok out ->
           encode_message_to_image None {[cover_png := plain_image 6 6]}
             cover_png msg_hi output_path
           = (<[out := img']> {[cover_png := plain_image 6 6]}, Ok out)
           /\ decode_message_from_image None
                (<[out := img']> {[cover_png := plain_image 6 6]}) out
              = Ok msg_hi).
Proof.
  apply (round_trip {[cover_png := plain_image 6 6]} cover_png
                    (plain_image 6 6) msg_hi).
  - reflexivity.
  - reflexivity.
  - repeat (constructor; [unfold is_scalar; lia|]). constructor.
  - discriminate.
  - vm_compute. reflexivity.
  - vm_compute. lia.
Defined.

(** C3. Capacity boundary: the capacity is [width * height * 3] bits;
    embedding succeeds for every message whose frame has exactly as many
    bits as the capacity, and fails with CapacityExceeded, the canvas and
    the files unchanged, for every message whose frame has more. *)
Theorem capacity_boundary (fs : gmap Path image) (cover : Path) (img : image)
    (message : str) :
  fs !! cover = Some img -> well_formed img ->
  is_text message -> Z.of_nat (utf8_length message) < 2 ^ 32 ->
  capacity (width img) (height img) = (width img * height img * 3)%nat
  /\ ((8 * frame_length message = capacity (width img) (height img))%nat ->
      exists img',
        (forall out,
            _fallback_encode fs cover message out
            = (<[out := img']> fs, Some img', Ok tt))
        /\ (message <> [] ->
            forall output_path out,
              ensure_png output_path = Ok out ->
              encode_message_to_image None fs cover message output_path
              = (<[out := img']> fs, Ok out)))
  /\ ((capacity (width img) (height img) < 8 * frame_length message)%nat ->
      (forall out,
          _fallback_encode fs cover message out
          = (fs, Some img, Raise CapacityExceeded))
      /\ (message <> [] ->
          forall output_path out,
            ensure_png output_path = Ok out ->
            encode_message_to_image None fs cover message output_path
            = (fs, Raise CapacityExceeded))).
Proof.
  intros Hfs Hwf Ht Hl.
  destruct (utf8_roundtrip message Ht) as (body & E & Hb & D).
  unfold frame_length. rewrite (utf8_length_encode _ _ E) in *.
  split; [reflexivity|]. split.
  - intros Hcap. exists (embedded img body).
    assert (Henc : forall out,
      _fallback_encode fs cover message out
      = (<[out := embedded img body]> fs, Some (embedded img body), Ok tt)).
    { intros out.
      rewrite (fallback_encode_text fs cover out img message body) by assumption.
      rewrite (proj2 (Nat.ltb_ge _ _)) by lia. reflexivity. }
    split; [exact Henc|]. intros Hne output_path out Hout.
    rewrite (encode_fallback fs cover output_path out img message) by assumption.
    rewrite Henc. reflexivity.
  - intros Hcap.
    assert (Henc : forall out,
      _fallback_encode fs cover message out = (fs, Some img, Raise too_large)).
    { intros out.
      rewrite (fallback_encode_text fs cover out img message body) by assumption.
      rewrite (proj2 (Nat.ltb_lt _ _)) by lia. reflexivity. }
    split; [exact Henc|]. intros Hne output_path out Hout.
    rewrite (encode_fallback fs cover output_path out img message) by assumption.
    rewrite Henc. reflexivity.
Qed.

Lemma capacity_boundary_witness :
  let fs : gmap Path image := {[cover_png := plain_image 8 4]} in
  (8 * frame_length msg_hi = capacity 8 4)%nat
  /\ (capacity 8 4 < 8 * frame_length msg_hey)%nat
  /\ (exists img',
         encode_message_to_image None fs cover_png msg_hi stego_png
         = (<[stego_png := img']> fs, Ok stego_png))
  /\ encode_message_to_image None fs cover_png msg_hey stego_png
     = (fs, Raise CapacityExceeded).
Proof.
  intros fs.
  assert (Hhi : is_text msg_hi)
    by (repeat (constructor; [unfold is_scalar; lia|]); constructor).
  assert (Hhey : is_text msg_hey)
    by (repeat (constructor; [unfold is_scalar; lia|]); constructor).
  assert (Eq : (8 * frame_length msg_hi = capacity 8 4)%nat) by reflexivity.
  assert (Lt : (capacity 8 4 < 8 * frame_length msg_hey)%nat)
    by (vm_compute; lia).
  split; [exact Eq|]. split; [exact Lt|]. split.
  - destruct (capacity_boundary fs cover_png (plain_image 8 4) msg_hi
                eq_refl eq_refl Hhi eq_refl) as (_ & Hok & _).
    destruct (Hok Eq) as (img' & _ & Hapi). exists img'.
    apply (Hapi ltac:(discriminate) stego_png stego_png). reflexivity.
  - destruct (capacity_boundary fs cover_png (plain_image 8 4) msg_hey
                eq_refl eq_refl Hhey eq_refl) as (_ & _ & Hfail).
    destruct (Hfail Lt) as (_ & Hapi).
    apply (Hapi ltac:(discriminate) stego_png stego_png). reflexivity.
Defined.

(** C4. Embed atomicity: the capacity check comes before any pixel is
    written; whenever embedding fails with CapacityExceeded the loaded
    canvas is the cover as it was and no file has been written. *)
Theorem embed_atomic (fs fs' : gmap Path image) (cover out : Path)
    (img : image) (message : str) (mem : option image) :
  fs !! cover = Some img -> well_formed img ->
  (_fallback_encode fs cover message out = (fs', mem, Raise CapacityExceeded) ->
   fs' = fs /\ mem = Some img)
  /\ (encode_message_to_image None fs cover message out
      = (fs', Raise CapacityExceeded) -> fs' = fs).
Proof.
  intros Hfs Hwf. split.
  - rewrite (fallback_encode_cases fs cover out message img Hfs Hwf).
    destruct (make_payload message) as [payload|e] eqn:E.
    + destruct (_ <? _)%nat; cbv zeta; intros [= <- <-]; split; reflexivity.
    + intros [= <- <- ->]. split; reflexivity.
  - apply encode_raise.
Qed.

Lemma embed_atomic_witness :
  let fs : gmap Path image := {[cover_png := plain_image 8 4]} in
  _fallback_encode fs cover_png msg_hey stego_png
  = (fs, Some (plain_image 8 4), Raise CapacityExceeded)
  /\ encode_message_to_image None fs cover_png msg_hey stego_png
     = (fs, Raise CapacityExceeded)
  /\ (fs = fs /\ Some (plain_image 8 4) = Some (plain_image 8 4))
  /\ fs = fs.
Proof.
  intros fs.
  assert (E1 : _fallback_encode fs cover_png msg_hey stego_png
               = (fs, Some (plain_image 8 4), Raise CapacityExceeded))
    by reflexivity.
  assert (E2 : encode_message_to_image None fs cover_png msg_hey stego_png
               = (fs, Raise CapacityExceeded)) by reflexivity.
  destruct (embed_atomic fs fs cover_png stego_png (plain_image 8 4) msg_hey
              (Some (plain_image 8 4)) eq_refl eq_refl) as (H1 & H2).
  exact (conj E1 (conj E2 (conj (H1 E1) (H2 E2)))).
Defined.

(** ** What the writer leaves, pixel by pixel *)

Lemma written_ge (bits : list Z) (v : Z) (i : nat) :
  (length bits <= i)%nat -> written bits v i = v.
Proof.
  intros Hi. unfold written. rewrite lookup_ge_None_2 by exact Hi. reflexivity.
Qed.

Lemma written_lookup (bits : list Z) (v bit : Z) (i : nat) :
  bits !! i = Some bit -> written bits v i = Z.lor (Z.land v (Z.lnot 1)) bit.
Proof. intros Hi. unfold written. rewrite Hi. reflexivity. Qed.

Lemma shiftr_written (bits : list Z) (v : Z) (i : nat) :
  is_bits bits -> Z.shiftr (written bits v i) 1 = Z.shiftr v 1.
Proof.
  intros Hb. unfold written. destruct (bits !! i) as [bit|] eqn:E; [|reflexivity].
  apply shiftr_set_lsb. unfold is_bits in Hb. rewrite Forall_lookup in Hb.
  exact (Hb i bit E).
Qed.

Lemma written_skip3 (c0 c1 c2 : Z) (bits : list Z) (v : Z) (i : nat) :
  written (c0 :: c1 :: c2 :: bits) v (3 + i) = written bits v i.
Proof. reflexivity. Qed.

Lemma lookup_tail {A : Type} (x : A) (l : list A) (k : nat) :
  (x :: l) !! S k = l !! k.
Proof. reflexivity. Qed.

Lemma lookup_write_bits (px : list pixel) (bits : list Z) (k : nat)
    (r g b a : Z) :
  px !! k = Some (r, g, b, a) ->
  write_bits px bits !! k
  = Some (written bits r (3 * k), written bits g (3 * k + 1),
          written bits b (3 * k + 2), a).
Proof.
  revert bits k.
  induction px as [|[[[r0 g0] b0] a0] px IH]; intros bits k H.
  - rewrite lookup_nil in H. discriminate.
  - destruct k as [|k].
    + cbn in H. injection H as -> -> -> ->. cbn [write_bits].
      destruct bits as [|c0 [|c1 [|c2 bits]]]; reflexivity.
    + rewrite lookup_tail in H. cbn [write_bits].
      replace (3 * S k)%nat with (3 + 3 * k)%nat by lia.
      destruct bits as [|c0 [|c1 [|c2 bits]]].
      * rewrite lookup_tail, H, !written_ge by (cbn [length]; lia).
        reflexivity.
      * rewrite lookup_tail, H, !written_ge by (cbn [length]; lia).
        reflexivity.
      * rewrite lookup_tail, H, !written_ge by (cbn [length]; lia).
        reflexivity.
      * rewrite lookup_tail, (IH bits k H).
        rewrite <- !Nat.add_assoc, !written_skip3. reflexivity.
Qed.

(** C5. Writer frame and effect: the writer visits the pixels row by row
    and, in each, the channels red, green, blue; the channel for position
    [i] of the stream becomes [(v & ~1) | bits[i]]; the bits above the
    lowest of every channel, every channel whose position is past the end
    of the stream, every later pixel, and every alpha channel keep their
    value. *)
Theorem writer_frame (img : image) (bits : list Z) :
  well_formed img -> is_bits bits ->
  exists img' rest,
    encode_rows (width img) (seq 0 (height img)) bits img = (img', Ok rest)
    /\ width img' = width img /\ height img' = height img
    /\ (forall x y,
           (x < width img)%nat -> (y < height img)%nat ->
           exists r g b a,
             let i := (3 * (y * width img + x))%nat in
             getpixel x y img = (img, Ok (r, g, b, a))
             /\ getpixel x y img'
                = (img', Ok (written bits r i, written bits g (i + 1),
                             written bits b (i + 2), a)))
    /\ (forall v i bit,
           bits !! i = Some bit ->
           written bits v i = Z.lor (Z.land v (Z.lnot 1)) bit)
    /\ (forall v i, Z.shiftr (written bits v i) 1 = Z.shiftr v 1)
    /\ (forall v i, (length bits <= i)%nat -> written bits v i = v).
Proof.
  intros Hwf Hb. eexists. eexists.
  split; [apply encode_rows_image; exact Hwf|].
  cbn [width height]. split; [reflexivity|]. split; [reflexivity|].
  split; [|split; [|split]].
  - intros x y Hx Hy. unfold well_formed in Hwf.
    assert (Hk : (y * width img + x < length (data img))%nat) by nia.
    destruct (lookup_lt_is_Some_2 _ _ Hk) as ([[[r g] b] a] & Hp).
    exists r, g, b, a. cbv zeta.
    assert (Ex : (x <? width img)%nat = true) by (apply Nat.ltb_lt; exact Hx).
    assert (Ey : (y <? height img)%nat = true) by (apply Nat.ltb_lt; exact Hy).
    unfold getpixel, in_bounds. cbn [width height data].
    rewrite Ex, Ey, Hp. cbn [andb].
    rewrite (lookup_write_bits _ bits _ r g b a Hp). split; reflexivity.
  - intros v i bit. apply written_lookup.
  - intros v i. apply shiftr_written, Hb.
  - intros v i. apply written_ge.
Qed.

Lemma writer_frame_witness :
  exists img' rest,
    encode_rows 2 (seq 0 2) [1; 0; 1; 1] (plain_image 2 2) = (img', Ok rest)
    /\ img' = Image 2 2 [(21, 40, 61, 255); (21, 40, 60, 255);
                         (20, 40, 60, 255); (20, 40, 60, 255)].
Proof.
  destruct (writer_frame (plain_image 2 2) [1; 0; 1; 1]) as (img' & rest & E & _).
  - reflexivity.
  - repeat (constructor; [unfold is_bit; lia|]). constructor.
  - exists img', rest. split; [exact E|].
    vm_compute in E. injection E as <- _. reflexivity.
Defined.

(** ** Outcomes of extraction *)

Lemma length_body_of (bytes : list Z) :
  length (body_of bytes)
  = Nat.min (Z.to_nat (declared_length bytes)) (length bytes - 9).
Proof. unfold body_of. rewrite length_take, length_drop. reflexivity. Qed.

(** C2, as stated, fails: a carrier whose length field declares more bytes
    than the canvas holds after the header is not rejected, the bytes that
    are there are returned; and carriers with a correct marker and all the
    declared bytes are rejected when the body is empty or is not UTF-8. *)
Lemma extract_outcome_counterexample :
  (startswith (carrier_bytes truncated_carrier) _HEADER = true
   /\ Z.of_nat (length (drop 9 (carrier_bytes truncated_carrier)))
      < declared_length (carrier_bytes truncated_carrier)
   /\ decode_message_from_image None {[stego_png := truncated_carrier]} stego_png
      = Ok [65])
  /\ (startswith (carrier_bytes empty_body_carrier) _HEADER = true
      /\ declared_length (carrier_bytes empty_body_carrier)
         <= Z.of_nat (length (drop 9 (carrier_bytes empty_body_carrier)))
      /\ decode_message_from_image None {[stego_png := empty_body_carrier]}
           stego_png
         = Raise NoMessageFound)
  /\ (startswith (carrier_bytes binary_body_carrier) _HEADER = true
      /\ declared_length (carrier_bytes binary_body_carrier)
         <= Z.of_nat (length (drop 9 (carrier_bytes binary_body_carrier)))
      /\ decode_message_from_image None {[stego_png := binary_body_carrier]}
           stego_png
         = Raise NoMessageFound).
Proof. vm_compute. repeat split; discriminate. Qed.

(** C2, amended. On the fallback path extraction fails with NoMessageFound
    exactly when the bytes of the canvas do not start with the marker, or
    the body is empty, or the body is not valid UTF-8, where the body is
    the declared number of bytes after the header or, when the canvas
    holds fewer, the bytes it holds; in every other case extraction
    returns the body decoded as UTF-8. *)
Theorem extract_outcome (fs : gmap Path image) (stego : Path) (img : image) :
  fs !! stego = Some img -> well_formed img ->
  let bytes := carrier_bytes img in
  let body := body_of bytes in
  length body = Nat.min (Z.to_nat (declared_length bytes)) (length bytes - 9)
  /\ (decode_message_from_image None fs stego = Raise NoMessageFound <->
      startswith bytes _HEADER = false \/ body = []
      \/ utf8_decode body = Raise UnicodeDecodeError)
  /\ (forall message,
         decode_message_from_image None fs stego = Ok message <->
         startswith bytes _HEADER = true /\ body <> []
         /\ utf8_decode body = Ok message)
  /\ (decode_message_from_image None fs stego = Raise NoMessageFound
      \/ exists message, decode_message_from_image None fs stego = Ok message).
Proof.
  intros Hfs Hwf bytes body.
  rewrite (decode_message_spec fs stego img Hfs Hwf). fold bytes.
  unfold extract_bytes. fold body.
  split; [apply length_body_of|].
  destruct (startswith bytes _HEADER).
  - destruct (utf8_decode body) as [[|c s]|e] eqn:E.
    + apply utf8_decode_nil in E. split; [|split].
      * split; [intros _; right; left; exact E | reflexivity].
      * intros message. split; [discriminate|].
        intros (_ & Hne & _). contradiction.
      * left. reflexivity.
    + assert (Hne : body <> [])
        by (intros Hnil; rewrite Hnil in E; discriminate).
      split; [|split].
      * split; [discriminate|]. intros [H|[H|H]]; congruence.
      * intros message. split.
        -- intros H. repeat split; assumption.
        -- intros (_ & _ & H). exact H.
      * right. eexists. reflexivity.
    + pose proof (utf8_decode_raise _ _ E) as ->. split; [|split].
      * split; [intros _; right; right; reflexivity | reflexivity].
      * intros message. split; [discriminate|].
        intros (_ & _ & H). discriminate.
      * left. reflexivity.
  - split; [|split].
    + split; [intros _; left; reflexivity | reflexivity].
    + intros message. split; [discriminate|]. intros (H & _). discriminate.
    + left. reflexivity.
Qed.

Lemma extract_outcome_witness :
  decode_message_from_image None {[stego_png := truncated_carrier]} stego_png
  = Ok [65]
  <-> startswith (carrier_bytes truncated_carrier) _HEADER = true
      /\ body_of (carrier_bytes truncated_carrier) <> []
      /\ utf8_decode (body_of (carrier_bytes truncated_carrier)) = Ok [65].
Proof.
  destruct (extract_outcome {[stego_png := truncated_carrier]} stego_png
              truncated_carrier) as (_ & _ & H & _).
  - reflexivity.
  - reflexivity.
  - exact (H [65]).
Defined.

(** C9. Extraction never returns an empty message: on a carrier whose
    bytes hold the marker and a length field of zero, and on a carrier
    whose body is not valid UTF-8, the no-message error is raised. *)
Theorem extract_never_empty (lsb : option backend) (fs : gmap Path image)
    (stego : Path) (img : image) :
  fs !! stego = Some img -> well_formed img ->
  decode_message_from_image lsb fs stego <> Ok []
  /\ (startswith (carrier_bytes img) _HEADER = true ->
      declared_length (carrier_bytes img) = 0 ->
      decode_message_from_image None fs stego = Raise NoMessageFound)
  /\ (forall e,
         utf8_decode (body_of (carrier_bytes img)) = Raise e ->
         decode_message_from_image None fs stego = Raise NoMessageFound).
Proof.
  intros Hfs Hwf. split; [|split].
  - unfold decode_message_from_image. case_bool_decide; [discriminate|].
    destruct lsb as [l|].
    + destruct (reveal l fs stego) as [[[|c s]|]|e]; discriminate.
    + destruct (_fallback_decode fs stego) as [[|c s]|e]; discriminate.
  - intros Hsw Hzero.
    rewrite (decode_message_spec fs stego img Hfs Hwf). unfold extract_bytes.
    rewrite Hsw. unfold body_of. rewrite Hzero. reflexivity.
  - intros e He.
    rewrite (decode_message_spec fs stego img Hfs Hwf). unfold extract_bytes.
    rewrite He. destruct (startswith _ _); reflexivity.
Qed.

Lemma extract_never_empty_witness :
  decode_message_from_image None {[stego_png := empty_body_carrier]} stego_png
  = Raise NoMessageFound
  /\ decode_message_from_image None {[stego_png := binary_body_carrier]} stego_png
     = Raise NoMessageFound.
Proof.
  split.
  - destruct (extract_never_empty None {[stego_png := empty_body_carrier]}
                stego_png empty_body_carrier) as (_ & H & _).
    + reflexivity.
    + reflexivity.
    + apply H; reflexivity.
  - destruct (extract_never_empty None {[stego_png := binary_body_carrier]}
                stego_png binary_body_carrier) as (_ & _ & H).
    + reflexivity.
    + reflexivity.
    + apply (H UnicodeDecodeError). reflexivity.
Defined.

Lemma encode_empty_message (lsb : option backend) (fs : gmap Path image)
    (cover out : Path) (img : image) :
  fs !! cover = Some img ->
  encode_message_to_image lsb fs cover [] out = (fs, Raise empty_message).
Proof.
  intros Hfs. unfold encode_message_to_image.
  rewrite bool_decide_eq_false_2 by (rewrite Hfs; discriminate).
  reflexivity.
Qed.

(** C8. Empty-message rejection: for every canvas, embedding the empty
    message fails with InvalidInput and writes nothing. *)
Theorem empty_message_rejected (lsb : option backend) (fs : gmap Path image)
    (cover out : Path) (img : image) :
  fs !! cover = Some img ->
  encode_message_to_image lsb fs cover [] out = (fs, Raise InvalidInput).
Proof. apply encode_empty_message. Qed.

Lemma empty_message_rejected_witness :
  encode_message_to_image None {[cover_png := plain_image 6 6]} cover_png []
    stego_png
  = ({[cover_png := plain_image 6 6]}, Raise InvalidInput).
Proof.
  apply (empty_message_rejected None {[cover_png := plain_image 6 6]}
           cover_png stego_png (plain_image 6 6)).
  reflexivity.
Defined.

(** ** Covers without pixels *)






(** ** Output paths *)

Lemma append_cons (c : ascii) (s t : string) :
  String.append (String c s) t = String c (String.append s t).
Proof. reflexivity. Qed.

Lemma length_append (s t : string) :
  String.length (String.append s t) = (String.length s + String.length t)%nat.
Proof.
  induction s as [|c s IH]; [reflexivity|].
  rewrite append_cons. cbn [String.length]. rewrite IH. reflexivity.
Qed.

Lemma substring_all (s : string) : substring 0 (String.length s) s = s.
Proof. induction s as [|c s IH]; cbn; [reflexivity | rewrite IH; reflexivity]. Qed.

Lemma substring_append_r (s t : string) :
  substring (String.length s) (String.length t) (String.append s t) = t.
Proof.
  induction s as [|c s IH]; [apply substring_all|].
  rewrite append_cons. cbn [String.length substring]. exact IH.
Qed.

Lemma length_substring (n m : nat) (s : string) :
  (n + m <= String.length s)%nat -> String.length (substring n m s) = m.
Proof.
  revert n m. induction s as [|c s IH]; intros n m H; cbn in H.
  - assert (n = 0%nat) as -> by lia. assert (m = 0%nat) as -> by lia. reflexivity.
  - destruct n as [|n]; cbn.
    + destruct m as [|m]; [reflexivity|]. cbn. rewrite (IH 0%nat m) by lia.
      reflexivity.
    + apply IH. lia.
Qed.

Lemma rfind_dot_lt (s : string) (i : nat) :
  rfind_dot s = Some i -> (i < String.length s)%nat.
Proof.
  revert i. induction s as [|c s IH]; intros i; cbn; [discriminate|].
  destruct (rfind_dot s) as [j|].
  - intros [= <-]. specialize (IH j eq_refl). lia.
  - destruct (Ascii.eqb c "."); [|discriminate]. intros [= <-]. lia.
Qed.

Lemma rfind_dot_append (s t : string) (i : nat) :
  rfind_dot t = Some i ->
  rfind_dot (String.append s t) = Some (String.length s + i)%nat.
Proof.
  intros Ht. induction s as [|c s IH]; [exact Ht|].
  rewrite append_cons. cbn [rfind_dot String.length]. rewrite IH. reflexivity.
Qed.

(** The suffix is empty or is the name from a dot that is neither its
    first nor its last character. *)
Lemma suffix_cases (p : Path) :
  suffix p = EmptyString
  \/ exists i, (0 < i)%nat /\ (i < String.length (name p) - 1)%nat
               /\ String.length (suffix p) = (String.length (name p) - i)%nat.
Proof.
  unfold suffix. destruct (rfind_dot (name p)) as [i|]; [|left; reflexivity].
  destruct (0 <? i)%nat eqn:E0; [|left; reflexivity].
  destruct (i <? String.length (name p) - 1)%nat eqn:E1; [|left; reflexivity].
  cbn [andb]. right. exists i.
  apply Nat.ltb_lt in E0. apply Nat.ltb_lt in E1.
  repeat split; try assumption. apply length_substring. lia.
Qed.

Lemma with_suffix_png (p : Path) :
  name p <> EmptyString ->
  exists stem,
    with_suffix p ".png" = Ok (mkPath (dir p) (String.append stem ".png"))
    /\ (0 < String.length stem)%nat.
Proof.
  intros Hne. unfold with_suffix. cbn [contains_char Ascii.eqb Bool.eqb orb].
  cbn [String.eqb Ascii.eqb Bool.eqb String.prefix negb andb orb].
  destruct (String.eqb_spec (name p) EmptyString) as [|_]; [contradiction|].
  eexists. split; [reflexivity|].
  assert (Hlen : (0 < String.length (name p))%nat).
  { destruct (name p); [contradiction | cbn; lia]. }
  rewrite length_substring by lia.
  destruct (suffix_cases p) as [-> | (i & H0 & H1 & ->)]; cbn [String.length]; lia.
Qed.

Lemma suffix_append_png (d stem : string) :
  (0 < String.length stem)%nat ->
  suffix (mkPath d (String.append stem ".png")) = ".png"%string.
Proof.
  intros Hs. unfold suffix. cbn [name].
  rewrite (rfind_dot_append stem ".png" 0) by reflexivity.
  rewrite length_append. cbn [String.length].
  rewrite (proj2 (Nat.ltb_lt _ _)) by lia.
  rewrite (proj2 (Nat.ltb_lt _ _)) by lia.
  cbn [andb]. rewrite Nat.add_0_r.
  replace (String.length stem + 4 - String.length stem)%nat
    with (String.length ".png") by (cbn; lia).
  apply substring_append_r.
Qed.

Lemma ensure_png_spec (p out : Path) :
  ensure_png p = Ok out ->
  lower (suffix out) = ".png"%string
  /\ (lower (suffix p) = ".png"%string -> out = p)
  /\ (lower (suffix p) <> ".png"%string ->
      with_suffix p ".png" = Ok out /\ suffix out = ".png"%string
      /\ dir out = dir p /\ out <> p).
Proof.
  unfold ensure_png.
  destruct (String.eqb_spec (lower (suffix p)) ".png") as [Heq|Hne]; cbn [negb].
  - intros [= <-]. split; [exact Heq|]. split; [reflexivity|]. contradiction.
  - intros Hout.
    assert (Hname : name p <> EmptyString).
    { intros Hn. unfold with_suffix in Hout. rewrite Hn in Hout.
      discriminate. }
    destruct (with_suffix_png p Hname) as (stem & Hw & Hs).
    rewrite Hw in Hout. injection Hout as <-.
    pose proof (suffix_append_png (dir p) stem Hs) as Hsfx.
    split; [rewrite Hsfx; reflexivity|]. split; [contradiction|].
    intros _. split; [exact Hw|]. split; [exact Hsfx|]. split; [reflexivity|].
    intros Heq. rewrite Heq in Hsfx. rewrite Hsfx in Hne. apply Hne. reflexivity.
Qed.

Lemma ensure_png_total (p : Path) :
  name p <> EmptyString -> exists out, ensure_png p = Ok out.
Proof.
  intros Hne. unfold ensure_png.
  destruct (negb _); [|eexists; reflexivity].
  destruct (with_suffix_png p Hne) as (stem & -> & _). eexists. reflexivity.
Qed.

Lemma fallback_encode_saved (fs fs' : gmap Path image) (cover out : Path)
    (message : str) (mem : option image) :
  _fallback_encode fs cover message out = (fs', mem, Ok tt) ->
  exists img', fs' = <[out := img']> fs.
Proof.
  unfold _fallback_encode. destruct (fs !! cover) as [img|]; [|discriminate].
  destruct (make_payload message) as [payload|e]; [|discriminate].
  cbv zeta. destruct (_ <? _)%nat; [discriminate|].
  destruct (encode_rows _ _ _ _) as [img' [v|e1]]; [|discriminate].
  intros [= <- _]. exists img'. reflexivity.
Qed.

(** C10. The output path: embedding writes to and returns a path whose
    extension is [.png] (whatever the case of its letters).  It does so
    whenever the cover exists, the message is not empty, the requested path
    has a file name and the embedding itself succeeds (without the backend:
    a text message that fits the cover; with it: [lsb.hide] returns an
    image); and whenever it returns at all.  A requested path whose suffix
    is not [.png] has its suffix replaced with [.png], one whose suffix is
    [.png] is kept; a requested extension other than [.png] is never
    used. *)
Theorem output_is_png (lsb : option backend) (fs : gmap Path image)
    (cover output_path : Path) (message : str) :
  (name output_path <> EmptyString ->
   exists out, ensure_png output_path = Ok out)
  /\ (forall img,
        fs !! cover = Some img -> well_formed img ->
        message <> [] -> is_text message ->
        Z.of_nat (utf8_length message) < 2 ^ 32 ->
        (8 * frame_length message <= capacity (width img) (height img))%nat ->
        name output_path <> EmptyString ->
        exists out img',
          encode_message_to_image None fs cover message output_path
          = (<[out := img']> fs, Ok out)
          /\ ensure_png output_path = Ok out
          /\ lower (suffix out) = ".png"%string)
  /\ (forall l img secret,
        fs !! cover = Some img -> message <> [] ->
        hide l fs cover message = Ok secret ->
        name output_path <> EmptyString ->
        exists out,
          encode_message_to_image (Some l) fs cover message output_path
          = (<[out := secret]> fs, Ok out)
          /\ ensure_png output_path = Ok out
          /\ lower (suffix out) = ".png"%string)
  /\ (forall fs' out,
         encode_message_to_image lsb fs cover message output_path
         = (fs', Ok out) ->
         ensure_png output_path = Ok out
         /\ (exists img', fs' = <[out := img']> fs)
         /\ lower (suffix out) = ".png"%string
         /\ (lower (suffix output_path) = ".png"%string -> out = output_path)
         /\ (lower (suffix output_path) <> ".png"%string ->
             with_suffix output_path ".png" = Ok out
             /\ suffix out = ".png"%string
             /\ dir out = dir output_path /\ out <> output_path)).
Proof.
  split; [apply ensure_png_total|]. split; [|split].
  - intros img Hfs Hwf Hne Ht Hl Hcap Hname.
    destruct (ensure_png_total output_path Hname) as (out & Hout).
    destruct (utf8_roundtrip message Ht) as (body & E & _ & _).
    unfold frame_length in Hcap. rewrite (utf8_length_encode _ _ E) in Hl, Hcap.
    exists out, (embedded img body).
    split; [|split; [exact Hout | apply (ensure_png_spec output_path out Hout)]].
    rewrite (encode_fallback fs cover output_path out img message) by assumption.
    rewrite (fallback_encode_text fs cover out img message body) by assumption.
    rewrite (proj2 (Nat.ltb_ge _ _)) by lia. reflexivity.
  - intros l img secret Hfs Hne Hhide Hname.
    destruct (ensure_png_total output_path Hname) as (out & Hout).
    exists out.
    split; [|split; [exact Hout | apply (ensure_png_spec output_path out Hout)]].
    unfold encode_message_to_image.
    rewrite bool_decide_eq_false_2 by (rewrite Hfs; discriminate).
    rewrite bool_decide_eq_false_2 by exact Hne.
    rewrite Hout. cbv zeta. rewrite Hhide. reflexivity.
  - intros fs' out. unfold encode_message_to_image.
    case_bool_decide; [discriminate|]. case_bool_decide; [discriminate|].
    destruct (ensure_png output_path) as [out'|e0] eqn:Hout; [|discriminate].
    intros Henc.
    assert (Hw : out' = out /\ exists img', fs' = <[out := img']> fs).
    { destruct lsb as [l|].
      - cbv zeta in Henc. destruct (hide l fs cover message) as [secret|e];
          [|discriminate].
        injection Henc as <- <-. split; [reflexivity|]. eexists. reflexivity.
      - destruct (_fallback_encode fs cover message out')
          as [[fs1 mem] [[]|e1]] eqn:E; cbn in Henc; [|discriminate].
        injection Henc as <- <-. split; [reflexivity|].
        apply (fallback_encode_saved _ _ _ _ _ _ E). }
    destruct Hw as (<- & Hsaved).
    split; [reflexivity|]. split; [exact Hsaved|].
    apply ensure_png_spec. exact Hout.
Qed.

Lemma output_is_png_witness :
  exists img',
    encode_message_to_image None {[cover_png := plain_image 6 6]} cover_png
      msg_hi stego_jpg
    = (<[stego_png := img']> {[cover_png := plain_image 6 6]}, Ok stego_png)
    /\ ensure_png stego_jpg = Ok stego_png
    /\ lower (suffix stego_png) = ".png"%string
    /\ stego_png <> stego_jpg.
Proof.
  destruct (output_is_png None {[cover_png := plain_image 6 6]} cover_png
              stego_jpg msg_hi) as (_ & Hok & _ & _).
  destruct (Hok (plain_image 6 6)) as (out & img' & Henc & Hout & Hsfx).
  - reflexivity.
  - reflexivity.
  - discriminate.
  - repeat (constructor; [unfold is_scalar; lia|]). constructor.
  - vm_compute. reflexivity.
  - vm_compute. lia.
  - discriminate.
  - assert (E : out = stego_png)
      by (assert (H : ensure_png stego_jpg = Ok stego_png) by reflexivity;
          rewrite H in Hout; injection Hout as <-; reflexivity).
    subst out. exists img'.
    split; [exact Henc|]. split; [exact Hout|]. split; [exact Hsfx|].
    discriminate.
Defined.

(** * Further properties of the codec *)

(** ** Bits back to bytes and back *)

Lemma bits_of_byte_of_bits (b0 b1 b2 b3 b4 b5 b6 b7 : Z) :
  is_bit b0 -> is_bit b1 -> is_bit b2 -> is_bit b3 ->
  is_bit b4 -> is_bit b5 -> is_bit b6 -> is_bit b7 ->
  bits_of_byte (byte_of_bits b0 b1 b2 b3 b4 b5 b6 b7)
  = [b0; b1; b2; b3; b4; b5; b6; b7].
Proof.
  unfold is_bit.
  intros [-> | ->] [-> | ->] [-> | ->] [-> | ->]
         [-> | ->] [-> | ->] [-> | ->] [-> | ->]; reflexivity.
Qed.

Lemma to_bits_group8 (bits : list Z) :
  is_bits bits ->
  _to_bits (group8 bits) ++ drop (8 * length (group8 bits)) bits = bits
  /\ (length (drop (8 * length (group8 bits)) bits) < 8)%nat.
Proof.
  induction bits as [bits IH] using (induction_ltof1 _ (@length Z)).
  unfold ltof in IH. intros Hb.
  destruct (decide (length bits < 8)%nat) as [Hl | Hl].
  - do 8 (destruct bits as [|? bits]; [split; [reflexivity | cbn; lia]|]).
    cbn in Hl. lia.
  - do 8 (destruct bits as [|? bits]; [cbn in Hl; lia|]).
    unfold is_bits in Hb. repeat rewrite Forall_cons in Hb.
    destruct Hb as (H0 & H1 & H2 & H3 & H4 & H5 & H6 & H7 & Hb).
    cbn [group8 length]. rewrite to_bits_cons.
    rewrite bits_of_byte_of_bits by assumption.
    replace (8 * S (length (group8 bits)))%nat
      with (8 + 8 * length (group8 bits))%nat by lia.
    cbn [Nat.add drop app].
    destruct (IH bits) as (E & L); [cbn; lia | exact Hb |].
    rewrite E. split; [reflexivity | exact L].
Qed.

(** X1. On a sequence of bits [_from_bits] loses nothing but a trailing
    group of fewer than eight bits: it returns bytes whose bits, as
    [_to_bits] gives them, are the sequence up to that group. *)
Theorem from_bits_then_to_bits (bits : list Z) :
  is_bits bits ->
  exists data tail,
    _from_bits bits = Ok data /\ is_bytes data
    /\ bits = _to_bits data ++ tail /\ (length tail < 8)%nat
    /\ length data = (length bits / 8)%nat.
Proof.
  intros Hb. exists (group8 bits), (drop (8 * length (group8 bits)) bits).
  destruct (to_bits_group8 bits Hb) as (E & L).
  split; [apply from_bits_group8, Hb|].
  split; [apply is_bytes_group8, Hb|].
  split; [symmetry; exact E|]. split; [exact L|]. apply length_group8.
Qed.

Lemma from_bits_then_to_bits_witness :
  exists data tail,
    _from_bits [0; 1; 0; 0; 1; 0; 0; 1; 1; 0; 1] = Ok data /\ is_bytes data
    /\ [0; 1; 0; 0; 1; 0; 0; 1; 1; 0; 1] = _to_bits data ++ tail
    /\ (length tail < 8)%nat
    /\ length data = (length [0; 1; 0; 0; 1; 0; 0; 1; 1; 0; 1] / 8)%nat.
Proof.
  apply (from_bits_then_to_bits [0; 1; 0; 0; 1; 0; 0; 1; 1; 0; 1]).
  repeat (constructor; [unfold is_bit; lia|]). constructor.
Defined.

(** ** The reader after the writer *)

(** X2. Reading after writing: on a well-formed image the loops of
    [_fallback_decode] always read [width * height * 3] bits and leave the
    image as it is; run on the image the loops of [_fallback_encode] leave
    for a stream of bits that fits, they read the stream, then the bits
    that the image held before from that position on. *)
Theorem read_after_write (img : image) (bits : list Z) :
  well_formed img -> is_bits bits ->
  (length bits <= capacity (width img) (height img))%nat ->
  exists img' rest old,
    encode_rows (width img) (seq 0 (height img)) bits img = (img', Ok rest)
    /\ decode_rows (width img) (seq 0 (height img)) [] img = (img, Ok old)
    /\ length old = capacity (width img) (height img)
    /\ decode_rows (width img') (seq 0 (height img')) [] img'
       = (img', Ok (bits ++ drop (length bits) old)).
Proof.
  intros Hwf Hb Hcap.
  pose proof Hwf as Hlen. unfold well_formed in Hlen. unfold capacity in *.
  eexists. eexists. exists (read_bits (data img)).
  split; [apply encode_rows_image; exact Hwf|].
  split; [apply decode_rows_image; exact Hwf|].
  split; [rewrite length_read_bits; lia|].
  cbn [width height].
  pose proof (decode_rows_image
                (Image (width img) (height img) (write_bits (data img) bits)))
    as H.
  cbn [width height data] in H. rewrite H.
  - rewrite read_write_bits by (assumption || lia). reflexivity.
  - unfold well_formed. cbn [width height data].
    rewrite length_write_bits. exact Hlen.
Qed.

Lemma read_after_write_witness :
  exists img' rest old,
    encode_rows 2 (seq 0 2) [1; 0; 1; 1] (plain_image 2 2) = (img', Ok rest)
    /\ decode_rows 2 (seq 0 2) [] (plain_image 2 2) = (plain_image 2 2, Ok old)
    /\ length old = capacity 2 2
    /\ decode_rows (width img') (seq 0 (height img')) [] img'
       = (img', Ok ([1; 0; 1; 1] ++ drop 4 old)).
Proof.
  apply (read_after_write (plain_image 2 2) [1; 0; 1; 1]).
  - reflexivity.
  - repeat (constructor; [unfold is_bit; lia|]). constructor.
  - cbn. lia.
Defined.

(** ** How far embedding moves a pixel *)

Lemma set_lsb_byte (v b : Z) :
  is_byte v -> is_bit b -> is_byte (set_lsb v b) /\ Z.abs (set_lsb v b - v) <= 1.
Proof.
  intros Hv Hb.
  assert (H : forall bit, (bit = 0 \/ bit = 1) ->
                     (0 <=? set_lsb v bit) && (set_lsb v bit <? 256)
                     && (Z.abs (set_lsb v bit - v) <=? 1) = true).
  { intros bit [-> | ->]; revert v Hv; apply byte_cases; vm_compute; reflexivity. }
  specialize (H b Hb). apply andb_prop in H. destruct H as (H & H3).
  apply andb_prop in H. destruct H as (H1 & H2).
  unfold is_byte. lia.
Qed.

Lemma write_bits_near (px : list pixel) (bits : list Z) :
  is_bits bits -> Forall is_pixel8 px ->
  Forall is_pixel8 (write_bits px bits) /\ Forall2 near px (write_bits px bits).
Proof.
  intros Hb Hpx. revert bits Hb.
  assert (Hrefl : forall l : list pixel, Forall2 near l l).
  { intros l. induction l as [|[[[r g] b] a] l IHl]; constructor; [|exact IHl].
    cbn. rewrite !Z.sub_diag. cbn. lia. }
  induction Hpx as [|[[[r g] b] a] px (Hr & Hg & Hbl & Ha) Hpx IH]; intros bits Hb.
  - split; constructor.
  - cbn [write_bits].
    destruct bits as [|b0 [|b1 [|b2 bits]]]; unfold is_bits in Hb;
      repeat rewrite Forall_cons in Hb.
    + split; [constructor; [cbn; tauto | exact Hpx] | apply Hrefl].
    + destruct Hb as (H0 & _).
      destruct (set_lsb_byte r b0 Hr H0) as (R1 & R2).
      split; constructor; try assumption; try apply Hrefl.
      * cbn. tauto.
      * cbn. rewrite !Z.sub_diag. cbn. lia.
    + destruct Hb as (H0 & H1 & _).
      destruct (set_lsb_byte r b0 Hr H0) as (R1 & R2).
      destruct (set_lsb_byte g b1 Hg H1) as (G1 & G2).
      split; constructor; try assumption; try apply Hrefl.
      * cbn. tauto.
      * cbn. rewrite !Z.sub_diag. cbn. lia.
    + destruct Hb as (H0 & H1 & H2 & Hb).
      destruct (set_lsb_byte r b0 Hr H0) as (R1 & R2).
      destruct (set_lsb_byte g b1 Hg H1) as (G1 & G2).
      destruct (set_lsb_byte b b2 Hbl H2) as (B1 & B2).
      destruct (IH bits Hb) as (I1 & I2).
      split; constructor; try assumption.
      * cbn. tauto.
      * cbn. lia.
Qed.

(** X3. Embedding is imperceptible by construction: when [_fallback_encode]
    succeeds on a well-formed cover of eight-bit channels, the image it
    saves has the size of the cover, eight-bit channels again, and every
    pixel differs from the cover's by at most one in red, green and blue
    and not at all in alpha. *)
Theorem embed_moves_by_one (fs fs' : gmap Path image) (cover out : Path)
    (img img' : image) (message : str) :
  fs !! cover = Some img -> well_formed img -> is_image8 img ->
  _fallback_encode fs cover message out = (fs', Some img', Ok tt) ->
  fs' !! out = Some img'
  /\ width img' = width img /\ height img' = height img
  /\ well_formed img' /\ is_image8 img'
  /\ Forall2 near (data img) (data img').
Proof.
  intros Hfs Hwf H8.
  rewrite (fallback_encode_cases fs cover out message img Hfs Hwf).
  destruct (make_payload message) as [payload|e]; [|discriminate].
  destruct (_ <? _)%nat; [discriminate|]. cbv zeta.
  intros [= <- <-].
  destruct (write_bits_near (data img) (_to_bits payload)
              (is_bits_to_bits payload) H8) as (W1 & W2).
  split; [apply lookup_insert_eq|].
  split; [reflexivity|]. split; [reflexivity|].
  split; [|split; assumption].
  unfold well_formed in *. cbn [width height data].
  rewrite length_write_bits. exact Hwf.
Qed.

Lemma embed_moves_by_one_witness :
  exists img',
    _fallback_encode {[cover_png := plain_image 6 6]} cover_png msg_hi stego_png
    = (<[stego_png := img']> {[cover_png := plain_image 6 6]}, Some img', Ok tt)
    /\ is_image8 img'
    /\ Forall2 near (data (plain_image 6 6)) (data img').
Proof.
  exists (embedded (plain_image 6 6) [72; 105; 33]).
  assert (E : _fallback_encode {[cover_png := plain_image 6 6]} cover_png
                msg_hi stego_png
              = (<[stego_png := embedded (plain_image 6 6) [72; 105; 33]]>
                   {[cover_png := plain_image 6 6]},
                 Some (embedded (plain_image 6 6) [72; 105; 33]), Ok tt))
    by reflexivity.
  split; [exact E|].
  destruct (embed_moves_by_one {[cover_png := plain_image 6 6]}
              (<[stego_png := embedded (plain_image 6 6) [72; 105; 33]]>
                 {[cover_png := plain_image 6 6]})
              cover_png stego_png (plain_image 6 6)
              (embedded (plain_image 6 6) [72; 105; 33]) msg_hi)
    as (_ & _ & _ & _ & H1 & H2).
  - reflexivity.
  - reflexivity.
  - unfold is_image8, plain_image. cbn [data].
    apply Forall_forall. intros p Hp.
    apply list_elem_of_In, repeat_spec in Hp. subst p.
    cbn. unfold is_byte. lia.
  - exact E.
  - split; assumption.
Defined.

(** ** Which files embedding touches *)




(** ** The outcome of embedding, case by case *)

Lemma utf8_encode_cp_scalar (c : Z) (bs : list Z) :
  utf8_encode_cp c = Ok bs -> is_scalar c /\ (1 <= length bs)%nat.
Proof.
  unfold utf8_encode_cp, is_scalar.
  split_comparisons; intros E; try discriminate E; injection E as <-;
    (split; [lia | cbn [length]; lia]).
Qed.

Lemma utf8_encode_text (s : str) (body : list Z) :
  utf8_encode s = Ok body ->
  is_text s /\ (s <> [] -> (1 <= length body)%nat).
Proof.
  revert body. induction s as [|c s IH]; intros body.
  - intros _. split; [constructor | congruence].
  - cbn [utf8_encode]. destruct (utf8_encode_cp c) as [bs|e] eqn:Ec; cbn;
      [|discriminate].
    destruct (utf8_encode s) as [rest|e] eqn:Es; cbn; [|discriminate].
    intros [= <-]. destruct (utf8_encode_cp_scalar c bs Ec) as (Hc & Hl).
    destruct (IH rest eq_refl) as (Hs & _).
    split; [constructor; assumption|]. intros _. rewrite length_app. lia.
Qed.

Lemma utf8_encode_not_text (s : str) :
  ~ is_text s -> utf8_encode s = Raise UnicodeEncodeError.
Proof.
  intros Hn. destruct (utf8_encode s) as [body|e] eqn:E.
  - destruct (utf8_encode_text s body E) as (Ht & _). contradiction.
  - rewrite (utf8_encode_raise s e E). reflexivity.
Qed.

Lemma ensure_png_no_name (p : Path) :
  name p = EmptyString -> ensure_png p = Raise ValueError.
Proof.
  intros Hn. unfold ensure_png, suffix, with_suffix. rewrite Hn. reflexivity.
Qed.

(** X5. The outcome of [encode_message_to_image] without the backend, in
    the order in which the code decides it: a missing cover is reported
    first, whatever the message and the output path; then an empty message;
    then an output path without a file name, as [ValueError]; then a
    message that is not encodable text, as [UnicodeEncodeError]; then a
    message of 2^32 bytes or more, as [OverflowError]; then a frame larger
    than the capacity; in every other case the image is saved under the
    output path with the suffix [.png].  Only on success is a file
    written. *)
Theorem encode_outcome (fs : gmap Path image) (cover output_path : Path)
    (message : str) :
  (fs !! cover = None ->
   encode_message_to_image None fs cover message output_path
   = (fs, Raise (cover_not_found cover)))
  /\ (forall img,
        fs !! cover = Some img -> well_formed img ->
        (message = [] ->
         encode_message_to_image None fs cover message output_path
         = (fs, Raise empty_message))
        /\ (message <> [] -> name output_path = EmptyString ->
            encode_message_to_image None fs cover message output_path
            = (fs, Raise ValueError))
        /\ (message <> [] -> name output_path <> EmptyString ->
            ~ is_text message ->
            encode_message_to_image None fs cover message output_path
            = (fs, Raise UnicodeEncodeError))
        /\ (message <> [] -> name output_path <> EmptyString ->
            is_text message -> 2 ^ 32 <= Z.of_nat (utf8_length message) ->
            encode_message_to_image None fs cover message output_path
            = (fs, Raise OverflowError))
        /\ (message <> [] -> name output_path <> EmptyString ->
            is_text message -> Z.of_nat (utf8_length message) < 2 ^ 32 ->
            (capacity (width img) (height img) < 8 * frame_length message)%nat ->
            encode_message_to_image None fs cover message output_path
            = (fs, Raise too_large))
        /\ (message <> [] -> name output_path <> EmptyString ->
            is_text message -> Z.of_nat (utf8_length message) < 2 ^ 32 ->
            (8 * frame_length message <= capacity (width img) (height img))%nat ->
            exists out img',
              ensure_png output_path = Ok out
              /\ lower (suffix out) = ".png"%string
              /\ encode_message_to_image None fs cover message output_path
                 = (<[out := img']> fs, Ok out))).
Proof.
  split.
  - intros Hfs. unfold encode_message_to_image.
    rewrite bool_decide_eq_true_2 by exact Hfs. reflexivity.
  - intros img Hfs Hwf.
    split; [intros ->; apply (encode_empty_message None fs cover output_path img Hfs)|].
    split.
    { intros Hne Hname. unfold encode_message_to_image.
      rewrite bool_decide_eq_false_2 by (rewrite Hfs; discriminate).
      rewrite bool_decide_eq_false_2 by exact Hne.
      rewrite (ensure_png_no_name _ Hname). reflexivity. }
    split.
    { intros Hne Hname Hnt.
      destruct (ensure_png_total output_path Hname) as (out & Hout).
      rewrite (encode_fallback fs cover output_path out img message) by assumption.
      rewrite (fallback_encode_cases fs cover out message img Hfs Hwf).
      unfold make_payload. rewrite (utf8_encode_not_text message Hnt).
      reflexivity. }
    split.
    { intros Hne Hname Ht Hl.
      destruct (ensure_png_total output_path Hname) as (out & Hout).
      destruct (utf8_roundtrip message Ht) as (body & E & _ & _).
      rewrite (utf8_length_encode _ _ E) in Hl.
      rewrite (encode_fallback fs cover output_path out img message) by assumption.
      rewrite (fallback_encode_cases fs cover out message img Hfs Hwf).
      unfold make_payload, to_bytes4. rewrite E. cbn.
      rewrite (proj2 (Z.ltb_ge _ _)) by exact Hl. rewrite andb_false_r.
      reflexivity. }
    split.
    { intros Hne Hname Ht Hl Hcap.
      destruct (ensure_png_total output_path Hname) as (out & Hout).
      destruct (utf8_roundtrip message Ht) as (body & E & _ & _).
      unfold frame_length in Hcap. rewrite (utf8_length_encode _ _ E) in Hl, Hcap.
      rewrite (encode_fallback fs cover output_path out img message) by assumption.
      rewrite (fallback_encode_text fs cover out img message body) by assumption.
      rewrite (proj2 (Nat.ltb_lt _ _)) by lia. reflexivity. }
    intros Hne Hname Ht Hl Hcap.
    destruct (ensure_png_total output_path Hname) as (out & Hout).
    destruct (utf8_roundtrip message Ht) as (body & E & _ & _).
    unfold frame_length in Hcap. rewrite (utf8_length_encode _ _ E) in Hl, Hcap.
    exists out, (embedded img body). split; [exact Hout|].
    split; [apply (ensure_png_spec output_path out Hout)|].
    rewrite (encode_fallback fs cover output_path out img message) by assumption.
    rewrite (fallback_encode_text fs cover out img message body) by assumption.
    rewrite (proj2 (Nat.ltb_ge _ _)) by lia. reflexivity.
Qed.

Lemma encode_outcome_witness :
  encode_message_to_image None {[cover_png := plain_image 6 6]} cover_png
    msg_surrogate stego_jpg
  = ({[cover_png := plain_image 6 6]}, Raise UnicodeEncodeError)
  /\ encode_message_to_image None {[cover_png := plain_image 6 6]} cover_png
       msg_hi no_name
     = ({[cover_png := plain_image 6 6]}, Raise ValueError)
  /\ encode_message_to_image None {[cover_png := plain_image 6 6]} stego_png
       [] no_name
     = ({[cover_png := plain_image 6 6]}, Raise (cover_not_found stego_png)).
Proof.
  split; [|split].
  - destruct (encode_outcome {[cover_png := plain_image 6 6]} cover_png
                stego_jpg msg_surrogate) as (_ & H).
    destruct (H (plain_image 6 6)) as (_ & _ & H3 & _).
    + reflexivity.
    + reflexivity.
    + apply H3; [discriminate | discriminate |].
      intros Ht. unfold msg_surrogate in Ht.
      apply Forall_cons in Ht. destruct Ht as (_ & Ht).
      apply Forall_cons in Ht. destruct Ht as (_ & Ht).
      apply Forall_cons in Ht. destruct Ht as ((_ & Hs) & _).
      apply Hs. lia.
  - destruct (encode_outcome {[cover_png := plain_image 6 6]} cover_png
                no_name msg_hi) as (_ & H).
    destruct (H (plain_image 6 6)) as (_ & H2 & _).
    + reflexivity.
    + reflexivity.
    + apply H2; [discriminate | reflexivity].
  - destruct (encode_outcome {[cover_png := plain_image 6 6]} stego_png
                no_name []) as (H & _).
    apply H. reflexivity.
Defined.

(** ** Carriers without a message *)

Lemma well_formed_new_image (w h : nat) (color : pixel) :
  well_formed (new_image w h color).
Proof. unfold well_formed, new_image. cbn [width height data]. apply repeat_length. Qed.

Lemma read_bits_cons (p : pixel) (px : list pixel) :
  read_bits (p :: px)
  = [Z.land p.1.1.1 1; Z.land p.1.1.2 1; Z.land p.1.2 1] ++ read_bits px.
Proof. destruct p as [[[r g] b] a]. reflexivity. Qed.

(** The marker is not periodic: the bits of a carrier of one colour do
    not spell its first two bytes. *)
Lemma uniform_not_marker (color : pixel) (n : nat) :
  startswith (group8 (read_bits (repeat color n))) _HEADER = false.
Proof.
  unfold startswith. apply bool_decide_eq_false_2.
  change (length _HEADER) with 5%nat.
  destruct color as [[[r g] b] a].
  pose proof (is_bit_land1 r) as Hr. pose proof (is_bit_land1 g) as Hg.
  pose proof (is_bit_land1 b) as Hb.
  do 6 (destruct n as [|n]; [cbn; discriminate|]).
  cbn [repeat]. rewrite !read_bits_cons. cbn [fst snd app group8 take].
  unfold _HEADER, byte_of_bits. intros [= E0 E1 _].
  unfold is_bit in *. lia.
Qed.

(** X6. An image of one colour carries no message: for every size and
    every colour, extraction from [Image.new("RGBA", (w, h), color)]
    raises the no-message error, as the repository's test expects of a
    black image. *)
Theorem uniform_image_no_message (fs : gmap Path image) (stego : Path)
    (w h : nat) (color : pixel) :
  fs !! stego = Some (new_image w h color) ->
  _fallback_decode fs stego = Ok []
  /\ decode_message_from_image None fs stego = Raise no_message.
Proof.
  intros Hfs.
  pose proof (well_formed_new_image w h color) as Hwf.
  pose proof (uniform_not_marker color (w * h)) as Hsw.
  split.
  - rewrite (fallback_decode_spec fs stego _ Hfs Hwf).
    unfold carrier_bytes, new_image. cbn [data]. rewrite Hsw. reflexivity.
  - rewrite (decode_message_spec fs stego _ Hfs Hwf).
    unfold extract_bytes, carrier_bytes, new_image. cbn [data].
    rewrite Hsw. reflexivity.
Qed.

Lemma uniform_image_no_message_witness :
  decode_message_from_image None
    {[stego_png := new_image 64 64 (0, 0, 0, 255)]} stego_png
  = Raise no_message.
Proof.
  apply (uniform_image_no_message
           {[stego_png := new_image 64 64 (0, 0, 0, 255)]} stego_png
           64 64 (0, 0, 0, 255)).
  apply lookup_singleton_eq.
Defined.



(** ** More on output paths *)

Lemma append_nil_r (s : string) : String.append s EmptyString = s.
Proof.
  induction s as [|c s IH]; [reflexivity|].
  rewrite append_cons, IH. reflexivity.
Qed.

Lemma substring_split (s : string) (i : nat) :
  (i <= String.length s)%nat ->
  String.append (substring 0 i s) (substring i (String.length s - i) s) = s.
Proof.
  revert i. induction s as [|c s IH]; intros i Hi.
  - cbn in Hi. assert (i = 0%nat) as -> by lia. reflexivity.
  - destruct i as [|i].
    + cbn [substring String.length Nat.sub]. rewrite substring_all. reflexivity.
    + cbn [substring String.length Nat.sub]. rewrite append_cons.
      rewrite IH by (cbn in Hi; lia). reflexivity.
Qed.

Lemma suffix_split (p : Path) :
  String.append
    (substring 0 (String.length (name p) - String.length (suffix p)) (name p))
    (suffix p)
  = name p.
Proof.
  unfold suffix. destruct (rfind_dot (name p)) as [i|] eqn:Ei.
  - destruct ((0 <? i)%nat && (i <? String.length (name p) - 1)%nat) eqn:Ec.
    + apply andb_prop in Ec. destruct Ec as (_ & E1). apply Nat.ltb_lt in E1.
      rewrite length_substring by lia.
      replace (String.length (name p) - (String.length (name p) - i))%nat
        with i by lia.
      apply substring_split. lia.
    + cbn [String.length]. rewrite Nat.sub_0_r, substring_all.
      apply append_nil_r.
  - cbn [String.length]. rewrite Nat.sub_0_r, substring_all. apply append_nil_r.
Qed.

Lemma ensure_png_raise (p : Path) (e : exn) :
  ensure_png p = Raise e -> name p = EmptyString /\ e = ValueError.
Proof.
  intros H. destruct (String.eqb_spec (name p) EmptyString) as [Hn|Hn].
  - rewrite (ensure_png_no_name p Hn) in H. injection H as <-.
    split; [exact Hn | reflexivity].
  - destruct (ensure_png_total p Hn) as (out & Hout). congruence.
Qed.

(** X8. [ensure_png] is idempotent, and what it returns
    [is_lossless_image] accepts. *)
Theorem ensure_png_idempotent (p out : Path) :
  ensure_png p = Ok out ->
  ensure_png out = Ok out /\ is_lossless_image out = true.
Proof.
  intros H. destruct (ensure_png_spec p out H) as (Hs & _). split.
  - unfold ensure_png. rewrite Hs. reflexivity.
  - unfold is_lossless_image. rewrite Hs. reflexivity.
Qed.

Lemma ensure_png_idempotent_witness :
  ensure_png stego_png = Ok stego_png /\ is_lossless_image stego_png = true.
Proof.
  apply (ensure_png_idempotent stego_jpg stego_png). reflexivity.
Defined.

(** X9. [ensure_png] changes nothing but the suffix.  It raises, and then
    [ValueError], exactly for a path without a file name; otherwise the
    directory is kept, and with the name split into its stem and its
    suffix, the new name is the stem followed by [.png], the stem being
    non-empty; a suffix that is [.png] in whatever case is kept. *)
Theorem ensure_png_keeps_stem (p : Path) :
  (forall e, ensure_png p = Raise e <-> name p = EmptyString /\ e = ValueError)
  /\ (forall out,
        ensure_png p = Ok out ->
        dir out = dir p
        /\ exists stem,
            stem <> EmptyString
            /\ name p = String.append stem (suffix p)
            /\ name out
               = String.append stem
                   (if String.eqb (lower (suffix p)) ".png"
                    then suffix p else ".png"%string)).
Proof.
  split.
  - intros e. split; [apply ensure_png_raise|].
    intros (Hn & ->). apply ensure_png_no_name, Hn.
  - intros out Hout.
    assert (Hname : name p <> EmptyString).
    { intros Hn. rewrite (ensure_png_no_name p Hn) in Hout. discriminate. }
    assert (Hstem : substring 0 (String.length (name p) - String.length (suffix p))
                      (name p) <> EmptyString).
    { assert (Hlen : (0 < String.length (name p))%nat)
        by (destruct (name p); [contradiction | cbn; lia]).
      intros Hs.
      assert (L : String.length
                    (substring 0 (String.length (name p)
                                  - String.length (suffix p)) (name p))
                  = 0%nat) by (rewrite Hs; reflexivity).
      rewrite length_substring in L by lia.
      destruct (suffix_cases p) as [E | (i & H0 & H1 & E)]; rewrite E in L;
        cbn [String.length] in L; lia. }
    unfold ensure_png in Hout.
    destruct (String.eqb (lower (suffix p)) ".png") eqn:Hs; cbn [negb] in Hout.
    + injection Hout as <-. split; [reflexivity|].
      eexists. split; [exact Hstem|].
      split; symmetry; apply suffix_split.
    + unfold with_suffix in Hout.
      cbn [contains_char Ascii.eqb Bool.eqb orb] in Hout.
      cbn [String.eqb Ascii.eqb Bool.eqb String.prefix negb andb orb] in Hout.
      destruct (String.eqb_spec (name p) EmptyString) as [|_]; [contradiction|].
      injection Hout as <-. split; [reflexivity|].
      eexists. split; [exact Hstem|].
      split; [symmetry; apply suffix_split | reflexivity].
Qed.

Lemma ensure_png_keeps_stem_witness :
  ensure_png no_name = Raise ValueError
  /\ (dir stego_png = dir stego_jpg
      /\ exists stem,
          stem <> EmptyString
          /\ name stego_jpg = String.append stem (suffix stego_jpg)
          /\ name stego_png = String.append stem ".png").
Proof.
  destruct (ensure_png_keeps_stem no_name) as (H1 & _).
  destruct (ensure_png_keeps_stem stego_jpg) as (_ & H2).
  split.
  - apply H1. split; reflexivity.
  - apply (H2 stego_png). reflexivity.
Defined.

(** ** Letter case *)

Lemma lower_ascii_dot (c : ascii) :
  Ascii.eqb (lower_ascii c) "." = Ascii.eqb c ".".
Proof.
  destruct c as [[] [] [] [] [] [] [] []]; reflexivity.
Qed.

Lemma lower_ascii_idem (c : ascii) : lower_ascii (lower_ascii c) = lower_ascii c.
Proof.
  destruct c as [[] [] [] [] [] [] [] []]; reflexivity.
Qed.

Lemma lower_idem (s : string) : lower (lower s) = lower s.
Proof.
  induction s as [|c s IH]; [reflexivity|].
  cbn [lower]. rewrite lower_ascii_idem, IH. reflexivity.
Qed.

Lemma length_lower (s : string) : String.length (lower s) = String.length s.
Proof. induction s as [|c s IH]; [reflexivity|]. cbn [lower String.length]. rewrite IH. reflexivity. Qed.

Lemma rfind_dot_lower (s : string) : rfind_dot (lower s) = rfind_dot s.
Proof.
  induction s as [|c s IH]; [reflexivity|].
  cbn [lower rfind_dot]. rewrite IH, lower_ascii_dot. reflexivity.
Qed.

Lemma substring_lower (n m : nat) (s : string) :
  substring n m (lower s) = lower (substring n m s).
Proof.
  revert n m. induction s as [|c s IH]; intros n m.
  - destruct n, m; reflexivity.
  - destruct n as [|n]; cbn [lower substring].
    + destruct m as [|m]; [reflexivity|]. cbn [lower]. rewrite IH. reflexivity.
    + apply IH.
Qed.

Lemma suffix_lower_name (p : Path) : suffix (lower_name p) = lower (suffix p).
Proof.
  unfold suffix, lower_name. cbn [name].
  rewrite rfind_dot_lower, length_lower.
  destruct (rfind_dot (name p)) as [i|]; [|reflexivity].
  destruct (_ && _); [apply substring_lower | reflexivity].
Qed.

(** X10. Letter case does not matter for a file name of ASCII
    characters: the suffix of the lower-cased name is the lower-cased
    suffix, so [is_lossless_image] gives the same answer for a path and
    for the path in lower case, and [ensure_png] returns a path unchanged
    exactly when its suffix is [.png] in whatever case. *)
Theorem suffix_case_insensitive (p : Path) :
  is_ascii_string (name p) ->
  suffix (lower_name p) = lower (suffix p)
  /\ is_lossless_image (lower_name p) = is_lossless_image p
  /\ (ensure_png p = Ok p <-> lower (suffix p) = ".png"%string)
  /\ (ensure_png p = Ok p <-> ensure_png (lower_name p) = Ok (lower_name p)).
Proof.
  intros _.
  assert (K : forall q, ensure_png q = Ok q <-> lower (suffix q) = ".png"%string).
  { intros q. split.
    - intros H. apply (ensure_png_spec q q H).
    - intros H. unfold ensure_png. rewrite H. reflexivity. }
  split; [apply suffix_lower_name|].
  split; [unfold is_lossless_image; rewrite suffix_lower_name, lower_idem; reflexivity|].
  split; [apply K|].
  rewrite !K, suffix_lower_name, lower_idem. reflexivity.
Qed.

Lemma suffix_case_insensitive_witness :
  suffix (lower_name out_bmp) = lower (suffix out_bmp)
  /\ is_lossless_image (lower_name out_bmp) = is_lossless_image out_bmp
  /\ (ensure_png out_bmp = Ok out_bmp <-> lower (suffix out_bmp) = ".png"%string)
  /\ (ensure_png out_bmp = Ok out_bmp
      <-> ensure_png (lower_name out_bmp) = Ok (lower_name out_bmp)).
Proof.
  apply (suffix_case_insensitive out_bmp).
  unfold is_ascii_string, out_bmp. cbn [name list_ascii_of_string].
  repeat (constructor; [vm_compute; lia|]). constructor.
Defined.

(** ** Embedding again *)

Lemma set_lsb_idem (v b : Z) : set_lsb (set_lsb v b) b = set_lsb v b.
Proof.
  unfold set_lsb. apply Z.bits_inj. intros n.
  rewrite !Z.lor_spec, !Z.land_spec, !Z.lor_spec, !Z.land_spec.
  destruct (Z.testbit v n), (Z.testbit (Z.lnot 1) n), (Z.testbit b n);
    reflexivity.
Qed.

Lemma write_bits_idem (px : list pixel) (bits : list Z) :
  write_bits (write_bits px bits) bits = write_bits px bits.
Proof.
  revert bits. induction px as [|[[[r g] b] a] px IH]; intros bits;
    [reflexivity|].
  cbn [write_bits]. destruct bits as [|b0 [|b1 [|b2 bits]]]; cbn [write_bits];
    rewrite ?set_lsb_idem, ?IH; reflexivity.
Qed.

(** X11. Embedding again overwrites: embedding a second message in the
    image that carries a first one succeeds under the same capacity
    bound, and extraction then returns the second message; embedding the
    same message again changes nothing. *)
Theorem embed_again (fs : gmap Path image) (cover out : Path) (img : image)
    (m1 m2 : str) :
  fs !! cover = Some img -> well_formed img ->
  is_text m1 -> Z.of_nat (utf8_length m1) < 2 ^ 32 ->
  (8 * frame_length m1 <= capacity (width img) (height img))%nat ->
  is_text m2 -> m2 <> [] -> Z.of_nat (utf8_length m2) < 2 ^ 32 ->
  (8 * frame_length m2 <= capacity (width img) (height img))%nat ->
  exists img1 img2,
    _fallback_encode fs cover m1 out = (<[out := img1]> fs, Some img1, Ok tt)
    /\ _fallback_encode (<[out := img1]> fs) out m2 out
       = (<[out := img2]> fs, Some img2, Ok tt)
    /\ decode_message_from_image None (<[out := img2]> fs) out = Ok m2
    /\ (m2 = m1 -> img2 = img1).
Proof.
  intros Hfs Hwf Ht1 Hl1 Hc1 Ht2 Hne2 Hl2 Hc2.
  destruct (utf8_roundtrip m1 Ht1) as (b1 & E1 & _ & _).
  destruct (utf8_roundtrip m2 Ht2) as (b2 & E2 & _ & _).
  unfold frame_length in *.
  rewrite (utf8_length_encode _ _ E1) in *. rewrite (utf8_length_encode _ _ E2) in *.
  pose proof (well_formed_embedded img b1 Hwf) as Hwf1.
  exists (embedded img b1), (embedded (embedded img b1) b2).
  split.
  { rewrite (fallback_encode_text fs cover out img m1 b1) by assumption.
    rewrite (proj2 (Nat.ltb_ge _ _)) by lia. reflexivity. }
  split.
  { rewrite (fallback_encode_text _ out out (embedded img b1) m2 b2)
      by (apply lookup_insert_eq || assumption).
    cbn [embedded width height].
    rewrite (proj2 (Nat.ltb_ge _ _)) by lia. rewrite insert_insert_eq.
    reflexivity. }
  split.
  { rewrite (decode_message_spec _ out (embedded (embedded img b1) b2))
      by (apply lookup_insert_eq || apply well_formed_embedded, Hwf1).
    destruct (extract_embedded (embedded img b1) m2 b2 Hwf1 E2 Ht2 Hl2)
      as (Hsw & Hdec); [cbn [embedded width height]; lia|].
    unfold extract_bytes. rewrite Hsw, Hdec.
    destruct m2; [contradiction | reflexivity]. }
  intros ->. rewrite E1 in E2. injection E2 as <-.
  unfold embedded. cbn [width height data]. rewrite write_bits_idem. reflexivity.
Qed.

Lemma embed_again_witness :
  exists img1 img2,
    _fallback_encode {[cover_png := plain_image 6 6]} cover_png msg_hey stego_png
    = (<[stego_png := img1]> {[cover_png := plain_image 6 6]}, Some img1, Ok tt)
    /\ _fallback_encode (<[stego_png := img1]> {[cover_png := plain_image 6 6]})
         stego_png msg_hi stego_png
       = (<[stego_png := img2]> {[cover_png := plain_image 6 6]}, Some img2, Ok tt)
    /\ decode_message_from_image None
         (<[stego_png := img2]> {[cover_png := plain_image 6 6]}) stego_png
       = Ok msg_hi
    /\ (msg_hi = msg_hey -> img2 = img1).
Proof.
  apply (embed_again {[cover_png := plain_image 6 6]} cover_png stego_png
           (plain_image 6 6) msg_hey msg_hi).
  - reflexivity.
  - reflexivity.
  - repeat (constructor; [unfold is_scalar; lia|]). constructor.
  - vm_compute. reflexivity.
  - vm_compute. lia.
  - repeat (constructor; [unfold is_scalar; lia|]). constructor.
  - discriminate.
  - vm_compute. reflexivity.
  - vm_compute. lia.
Defined.

(** ** What extraction looks at *)

Lemma read_bits_same_lsb (px qx : list pixel) :
  Forall2 same_lsb px qx -> read_bits px = read_bits qx.
Proof.
  intros H. induction H as [|[[[r g] b] a] [[[r' g'] b'] a'] px qx Hp _ IH];
    [reflexivity|].
  destruct Hp as (Hr & Hg & Hb). rewrite !read_bits_cons. cbn [fst snd].
  rewrite Hr, Hg, Hb, IH. reflexivity.
Qed.

(** X12. Extraction looks at nothing but the low-order bits of red, green
    and blue, in pixel order: two well-formed images whose pixels agree on
    these bits, whatever their alpha channels, their other bits and their
    shapes, give the same result. *)
Theorem extraction_reads_low_bits (fs1 fs2 : gmap Path image) (p1 p2 : Path)
    (img1 img2 : image) :
  fs1 !! p1 = Some img1 -> fs2 !! p2 = Some img2 ->
  well_formed img1 -> well_formed img2 ->
  Forall2 same_lsb (data img1) (data img2) ->
  _fallback_decode fs1 p1 = _fallback_decode fs2 p2
  /\ decode_message_from_image None fs1 p1
     = decode_message_from_image None fs2 p2.
Proof.
  intros H1 H2 W1 W2 Hs.
  rewrite (fallback_decode_spec fs1 p1 img1 H1 W1).
  rewrite (fallback_decode_spec fs2 p2 img2 H2 W2).
  rewrite (decode_message_spec fs1 p1 img1 H1 W1).
  rewrite (decode_message_spec fs2 p2 img2 H2 W2).
  unfold carrier_bytes. rewrite (read_bits_same_lsb _ _ Hs).
  split; reflexivity.
Qed.

Lemma extraction_reads_low_bits_witness :
  decode_message_from_image None
    {[stego_png := Image 2 1 [(20, 41, 60, 255); (1, 2, 3, 4)]]} stego_png
  = decode_message_from_image None
      {[cover_png := Image 1 2 [(0, 255, 0, 0); (255, 0, 255, 9)]]} cover_png.
Proof.
  apply (extraction_reads_low_bits _ _ stego_png cover_png
           (Image 2 1 [(20, 41, 60, 255); (1, 2, 3, 4)])
           (Image 1 2 [(0, 255, 0, 0); (255, 0, 255, 9)])).
  - reflexivity.
  - reflexivity.
  - reflexivity.
  - reflexivity.
  - repeat constructor.
Defined.

(** ** The smallest carrier *)

(** X13. A message needs 27 pixels: from a well-formed image of fewer
    pixels extraction always raises the no-message error, and in a cover
    of fewer pixels embedding any non-empty text message fails with the
    too-large error, nothing written. *)
Theorem smallest_carrier (fs : gmap Path image) (p : Path) (img : image) :
  fs !! p = Some img -> well_formed img ->
  (width img * height img < 27)%nat ->
  decode_message_from_image None fs p = Raise no_message
  /\ (forall message output_path out,
        message <> [] -> is_text message ->
        Z.of_nat (utf8_length message) < 2 ^ 32 ->
        ensure_png output_path = Ok out ->
        encode_message_to_image None fs p message output_path
        = (fs, Raise too_large)).
Proof.
  intros Hfs Hwf Hn. split.
  - rewrite (decode_message_spec fs p img Hfs Hwf). unfold extract_bytes.
    assert (Hb : body_of (carrier_bytes img) = []).
    { unfold body_of. rewrite (drop_ge (carrier_bytes img) 9); [apply take_nil|].
      unfold carrier_bytes. rewrite length_group8, length_read_bits.
      unfold well_formed in Hwf. rewrite Hwf.
      apply Nat.lt_succ_r, Nat.Div0.div_lt_upper_bound. lia. }
    rewrite Hb. destruct (startswith _ _); reflexivity.
  - intros message output_path out Hne Ht Hl Hout.
    destruct (utf8_roundtrip message Ht) as (body & E & _ & _).
    destruct (utf8_encode_text message body E) as (_ & Hlen).
    specialize (Hlen Hne). rewrite (utf8_length_encode _ _ E) in Hl.
    rewrite (encode_fallback fs p output_path out img message) by assumption.
    rewrite (fallback_encode_text fs p out img message body) by assumption.
    unfold capacity. rewrite (proj2 (Nat.ltb_lt _ _)) by lia. reflexivity.
Qed.

Lemma smallest_carrier_witness :
  decode_message_from_image None {[cover_png := plain_image 13 2]} cover_png
  = Raise no_message
  /\ encode_message_to_image None {[cover_png := plain_image 13 2]} cover_png
       [33] stego_jpg
     = ({[cover_png := plain_image 13 2]}, Raise too_large).
Proof.
  destruct (smallest_carrier {[cover_png := plain_image 13 2]} cover_png
              (plain_image 13 2)) as (H1 & H2).
  - reflexivity.
  - reflexivity.
  - cbn. lia.
  - split; [exact H1|].
    apply (H2 [33] stego_jpg stego_png).
    + discriminate.
    + repeat (constructor; [unfold is_scalar; lia|]). constructor.
    + vm_compute. reflexivity.
    + reflexivity.
Defined.

(** ** The layout of what is embedded *)

Lemma make_payload_ok (message : str) (payload : list Z) :
  make_payload message = Ok payload ->
  exists body,
    utf8_encode message = Ok body /\ Z.of_nat (length body) < 2 ^ 32
    /\ payload = frame body.
Proof.
  unfold make_payload. destruct (utf8_encode message) as [body|e]; cbn;
    [|discriminate].
  unfold to_bytes4. split_comparisons; cbn; intros E; try discriminate E.
  injection E as <-. exists body. repeat split. assumption.
Qed.

Lemma carrier_bytes_embedded (img : image) (body : list Z) :
  well_formed img -> is_bytes body ->
  (8 * (9 + length body) <= capacity (width img) (height img))%nat ->
  carrier_bytes (embedded img body)
  = frame body ++ drop (9 + length body) (carrier_bytes img).
Proof.
  intros Hwf Hb Hcap. unfold carrier_bytes, embedded. cbn [data].
  unfold well_formed, capacity in *.
  assert (Hlen : length (_to_bits (frame body)) = (8 * (9 + length body))%nat)
    by (rewrite length_to_bits, length_frame; reflexivity).
  rewrite read_write_bits by (apply is_bits_to_bits || lia).
  rewrite group8_to_bits_app by (apply is_bytes_frame, Hb).
  rewrite Hlen, group8_drop. reflexivity.
Qed.

(** X14. The layout of the carrier: when [_fallback_encode] succeeds on a
    well-formed cover, the bytes that the low-order bits of the saved
    image spell are the marker [IMSG\0], the length of the UTF-8 body as
    four bytes, big-endian, the body, and then the bytes that the cover
    spelled from that position on. *)
Theorem carrier_layout (fs fs' : gmap Path image) (cover out : Path)
    (img img' : image) (message : str) :
  fs !! cover = Some img -> well_formed img ->
  _fallback_encode fs cover message out = (fs', Some img', Ok tt) ->
  exists body len,
    utf8_encode message = Ok body
    /\ length len = 4%nat /\ is_bytes len
    /\ from_bytes_big len = Z.of_nat (length body)
    /\ carrier_bytes img'
       = _HEADER ++ len ++ body
         ++ drop (9 + length body) (carrier_bytes img).
Proof.
  intros Hfs Hwf Henc.
  assert (Hp : exists payload, make_payload message = Ok payload).
  { rewrite (fallback_encode_cases fs cover out message img Hfs Hwf) in Henc.
    destruct (make_payload message) as [payload|e]; [|discriminate].
    eexists. reflexivity. }
  destruct Hp as (payload & E).
  destruct (make_payload_ok _ _ E) as (body & Eb & Hl & _).
  rewrite (fallback_encode_text fs cover out img message body) in Henc
    by assumption.
  destruct (_ <? _)%nat eqn:Hcap; [discriminate|].
  apply Nat.ltb_ge in Hcap. injection Henc as _ <-.
  destruct (utf8_encode_text message body Eb) as (Ht & _).
  destruct (utf8_roundtrip message Ht) as (body' & Eb' & Hb & _).
  rewrite Eb in Eb'. injection Eb' as <-.
  assert (L : to_bytes4 (Z.of_nat (length body))
              = Ok [Z.of_nat (length body) / 2 ^ 24 mod 256;
                    Z.of_nat (length body) / 2 ^ 16 mod 256;
                    Z.of_nat (length body) / 2 ^ 8 mod 256;
                    Z.of_nat (length body) mod 256]).
  { unfold to_bytes4. split_comparisons. reflexivity. }
  apply from_bytes_big_to_bytes4 in L. destruct L as (L1 & L2 & L3).
  exists body. eexists. split; [exact Eb|]. split; [exact L3|].
  split; [exact L2|]. split; [exact L1|].
  rewrite (carrier_bytes_embedded img body Hwf Hb Hcap).
  unfold frame. rewrite <- !app_assoc. reflexivity.
Qed.

Lemma carrier_layout_witness :
  exists body len,
    utf8_encode msg_hi = Ok body
    /\ length len = 4%nat /\ is_bytes len
    /\ from_bytes_big len = Z.of_nat (length body)
    /\ carrier_bytes (embedded (plain_image 6 6) [72; 105; 33])
       = _HEADER ++ len ++ body
         ++ drop (9 + length body) (carrier_bytes (plain_image 6 6)).
Proof.
  apply (carrier_layout {[cover_png := plain_image 6 6]}
           (<[stego_png := embedded (plain_image 6 6) [72; 105; 33]]>
              {[cover_png := plain_image 6 6]})
           cover_png stego_png (plain_image 6 6)
           (embedded (plain_image 6 6) [72; 105; 33]) msg_hi).
  - reflexivity.
  - reflexivity.
  - reflexivity.
Defined.
